(** * TMS core (tms_system.py): shallow embedding and verified properties

    The development follows the layout of [tms_system.py]: enumerations,
    [Position], the equipment classes, [Warehouse], [Task], [PathPlanner]
    (with the [heapq] operations it calls) and [TMSSystem].

    Conventions of the embedding.
    - Python [int] is [Z]; Python [float] (weights, volumes, capacities) is an
      exact rational [Q] (ordered by [Qlt], equated by [==]): rounding of
      binary64 arithmetic is outside the model; every concrete value used
      below is a small integer, for which binary64 arithmetic is exact.
    - A [dict] that is only looked up by key is a [gmap]; a [dict] whose
      iteration order is observable ([tasks], [equipment], [warehouses], the
      product lines of a task) is an insertion-ordered association list.
    - Objects are identified by the key under which the registry holds them;
      a mutation through an object reference is a write-back under that key.
    - An exception is a value of [exn]; a function that may raise returns
      [exn + A] together with the state reached when the exception left it.
    - [datetime.now()] is an input of the operation that reads it, and
      [DatabaseManager] is an external collaborator whose calls either
      succeed or raise: the outcome is an input of the caller. *)

From Stdlib Require Import QArith Lqa Sorted.
From stdpp Require Import base numbers option list strings gmap fin_maps.

Open Scope Z_scope.

(** A number literal for the rational standing for a float. *)
Notation "# n" := (inject_Z n) (at level 1, format "# n").

(** ** Enumerations *)

Inductive TaskStatus := PENDING | IN_PROGRESS | COMPLETED | FAILED | CANCELLED.
Inductive TaskType :=
  SHIP_TRANSPORT | INTERNAL_TRANSFER | LOADING | UNLOADING | MOVE_EQUIPMENT.
Inductive EquipmentStatus := IDLE | BUSY | MAINTENANCE | ERROR.
Inductive WarehouseType := TERMINAL | PRODUCT | TEMPORARY.

#[global] Instance TaskStatus_eq_dec : EqDecision TaskStatus.
Proof. solve_decision. Defined.
#[global] Instance TaskType_eq_dec : EqDecision TaskType.
Proof. solve_decision. Defined.
#[global] Instance EquipmentStatus_eq_dec : EqDecision EquipmentStatus.
Proof. solve_decision. Defined.
#[global] Instance WarehouseType_eq_dec : EqDecision WarehouseType.
Proof. solve_decision. Defined.

(** ** Exceptions

    [KeyError k] is raised by a subscript [d[k]] on a missing key,
    [IndexError] by a list index out of range, [TypeError] by an unsupported
    comparison, [DatabaseError] stands for whatever [DatabaseManager]
    raises. *)

Inductive exn :=
| KeyError (key : string)
| IndexError
| TypeError
| DatabaseError.

(** [exn + _] is the error monad of the embedding. *)
#[global] Instance exn_ret : MRet (sum exn) := λ A a, inr a.
#[global] Instance exn_bind : MBind (sum exn) := λ A B f m,
  match m with inl e => inl e | inr a => f a end.

(** ** Insertion-ordered dictionaries *)

Module Dict.
Section Dict.
Context {V : Type}.

Fixpoint get (k : string) (d : list (string * V)) : option V :=
  match d with
  | [] => None
  | (k', v) :: d' => if decide (k = k') then Some v else get k d'
  end.

(** [d[k] = v]: an existing key keeps its position, a new key goes last. *)
Fixpoint set (k : string) (v : V) (d : list (string * V)) : list (string * V) :=
  match d with
  | [] => [(k, v)]
  | (k', v') :: d' =>
      if decide (k = k') then (k, v) :: d' else (k', v') :: set k v d'
  end.

Definition keys (d : list (string * V)) : list string := d.*1.
Definition values (d : list (string * V)) : list V := d.*2.

(** [d[k]], raising [KeyError]. *)
Definition subscript (k : string) (d : list (string * V)) : exn + V :=
  match get k d with
  | Some v => inr v
  | None => inl (KeyError k)
  end.
End Dict.
End Dict.

(** ** Position *)

Record Position := mkPosition { px : Z; py : Z }.

#[global] Instance Position_eq_dec : EqDecision Position.
Proof. solve_decision. Defined.

Definition distance_to (a b : Position) : Z :=
  Z.abs (px a - px b) + Z.abs (py a - py b).

(** ** Product *)

Record Product := mkProduct {
  product_name : string;
  weight : Q;
  volume : Q;
  category : string;
  unit_price : Q
}.

(** [int * float] *)
Definition scale (x : Q) (n : Z) : Q := (x * inject_Z n)%Q.

(** ** Warehouse *)

Module Warehouse.
Record t := mk {
  name : string;
  position : Position;
  capacity : Q;
  warehouse_type : WarehouseType;
  products : gmap string Z;
  current_volume : Q
}.

(** [Warehouse.__init__] *)
Definition init (nm : string) (pos : Position) (cap : Q) (ty : WarehouseType) : t :=
  mk nm pos cap ty ∅ 0%Q.

Definition with_stock (w : t) (ps : gmap string Z) (vol : Q) : t :=
  mk (name w) (position w) (capacity w) (warehouse_type w) ps vol.

Definition add_product (w : t) (product_id : string) (quantity : Z)
    (product_volume : Q) : bool * t :=
  let total_volume := scale product_volume quantity in
  if Qlt_le_dec (capacity w) (current_volume w + total_volume) then (false, w)
  else
    (true,
     with_stock w
       (<[product_id := default 0 (products w !! product_id) + quantity]> (products w))
       (current_volume w + total_volume)%Q).

Definition remove_product (w : t) (product_id : string) (quantity : Z)
    (product_volume : Q) : bool * t :=
  match products w !! product_id with
  | None => (false, w)
  | Some have =>
      if decide (have < quantity) then (false, w)
      else
        let left := have - quantity in
        let ps := if decide (left = 0) then delete product_id (products w)
                  else <[product_id := left]> (products w) in
        (true, with_stock w ps (current_volume w - scale product_volume quantity)%Q)
  end.

Definition get_available_capacity (w : t) : Q :=
  (capacity w - current_volume w)%Q.

Definition get_utilization_rate (w : t) : Q :=
  if Qlt_le_dec 0 (capacity w)
  then (current_volume w / capacity w * #100)%Q else 0%Q.
End Warehouse.

(** ** Equipment

    The three subclasses of [Equipment] are the constructors of [kind], each
    carrying the fields its [__init__] adds. [last_maintenance] is written
    once by [__init__] and never read; it is left out. *)

Module Crane.
Record t := mk { warehouse_id : string; capacity : Q; current_load : Q }.

Definition load_product (c : t) (product : Product) (quantity : Z) : bool * t :=
  let total_weight := scale (weight product) quantity in
  if Qlt_le_dec (capacity c) (current_load c + total_weight) then (false, c)
  else (true, mk (warehouse_id c) (capacity c) (current_load c + total_weight)%Q).

Definition unload_product (c : t) (product : Product) (quantity : Z) : bool * t :=
  let total_weight := scale (weight product) quantity in
  if Qlt_le_dec (current_load c) total_weight then (false, c)
  else (true, mk (warehouse_id c) (capacity c) (current_load c - total_weight)%Q).
End Crane.

Module FrameTruck.
Record t := mk {
  capacity : Q;
  attached_frame_id : option string;
  current_load : Q
}.

Definition attach_frame (f : t) (frame_id : string) : bool * t :=
  match attached_frame_id f with
  | Some _ => (false, f)
  | None => (true, mk (capacity f) (Some frame_id) (current_load f))
  end.

Definition detach_frame (f : t) : bool * t :=
  match attached_frame_id f with
  | None => (false, f)
  | Some _ => (true, mk (capacity f) None (current_load f))
  end.
End FrameTruck.

Module Frame.
Record t := mk { capacity : Q; current_load : Q; products : gmap string Z }.

Definition load_product (f : t) (product_id : string) (quantity : Z)
    (product_weight : Q) : bool * t :=
  let total_weight := scale product_weight quantity in
  if Qlt_le_dec (capacity f) (current_load f + total_weight) then (false, f)
  else
    (true,
     mk (capacity f) (current_load f + total_weight)%Q
        (<[product_id := default 0 (products f !! product_id) + quantity]> (products f))).

Definition unload_product (f : t) (product_id : string) (quantity : Z)
    (product_weight : Q) : bool * t :=
  match products f !! product_id with
  | None => (false, f)
  | Some have =>
      if decide (have < quantity) then (false, f)
      else
        let left := have - quantity in
        let ps := if decide (left = 0) then delete product_id (products f)
                  else <[product_id := left]> (products f) in
        (true, mk (capacity f) (current_load f - scale product_weight quantity)%Q ps)
  end.
End Frame.

Module Equipment.
Inductive kind :=
| KCrane (c : Crane.t)
| KFrameTruck (f : FrameTruck.t)
| KFrame (f : Frame.t).

Record t := mk {
  name : string;
  position : Position;
  status : EquipmentStatus;
  current_task_id : option string;
  variant : kind
}.

Definition with_status (e : t) (st : EquipmentStatus) (task : option string) : t :=
  mk (name e) (position e) st task (variant e).

Definition with_variant (e : t) (k : kind) : t :=
  mk (name e) (position e) (status e) (current_task_id e) k.

(** The overriding [can_perform_task] of each subclass. *)
Definition can_perform_task (e : t) (task_type : TaskType) : bool :=
  match variant e with
  | KCrane _ => bool_decide (task_type ∈ [LOADING; UNLOADING; MOVE_EQUIPMENT])
  | KFrameTruck _ => bool_decide (task_type ∈ [SHIP_TRANSPORT; INTERNAL_TRANSFER])
  | KFrame _ => false
  end.

(** The status goes to [BUSY] and back to [IDLE] within the call. *)
Definition move_to (e : t) (target_position : Position) : bool * t :=
  if decide (status e ≠ IDLE) then (false, e)
  else (true, mk (name e) target_position IDLE (current_task_id e) (variant e)).

(** [isinstance(eq, Crane)] *)
Definition as_crane (e : t) : option Crane.t :=
  match variant e with KCrane c => Some c | _ => None end.
End Equipment.

(** ** Task

    [metadata] is a [dict] with a fixed vocabulary of keys; each key the core
    reads or writes is an optional field, [None] standing for an absent key.
    [failure_reason] holds the exception whose [str] the source stores.
    [sub_tasks] is built by [create_ship_transport_task] and never read by
    the scheduler or the executor; it is kept as the list of the sub-tasks'
    types and metadata. *)

Module Task.
Record metadata := mkMeta {
  ship_plan_id : option string;
  products : option (list (string * Z));
  source_warehouse_id : option string;
  target_warehouse_id : option string;
  product_id : option string;
  quantity : option Z;
  failure_reason : option exn
}.

Definition no_metadata : metadata :=
  mkMeta None None None None None None None.

Record t := mk {
  task_type : TaskType;
  priority : Z;
  status : TaskStatus;
  created_at : Z;
  start_time : option Z;
  end_time : option Z;
  deadline : option Z;
  assigned_equipment : option string;
  sub_tasks : list (TaskType * metadata);
  meta : metadata
}.

Definition start_execution (now : Z) (task : t) : t :=
  mk (task_type task) (priority task) IN_PROGRESS (created_at task)
     (Some now) (end_time task) (deadline task) (assigned_equipment task)
     (sub_tasks task) (meta task).

Definition complete_task (now : Z) (task : t) : t :=
  mk (task_type task) (priority task) COMPLETED (created_at task)
     (start_time task) (Some now) (deadline task) (assigned_equipment task)
     (sub_tasks task) (meta task).

Definition fail_task (now : Z) (reason : exn) (task : t) : t :=
  let m := meta task in
  mk (task_type task) (priority task) FAILED (created_at task)
     (start_time task) (Some now) (deadline task) (assigned_equipment task)
     (sub_tasks task)
     (mkMeta (ship_plan_id m) (products m) (source_warehouse_id m)
             (target_warehouse_id m) (product_id m) (quantity m) (Some reason)).

Definition with_status (st : TaskStatus) (task : t) : t :=
  mk (task_type task) (priority task) st (created_at task)
     (start_time task) (end_time task) (deadline task) (assigned_equipment task)
     (sub_tasks task) (meta task).

Definition assign (equipment_id : string) (task : t) : t :=
  mk (task_type task) (priority task) (status task) (created_at task)
     (start_time task) (end_time task) (deadline task) (Some equipment_id)
     (sub_tasks task) (meta task).
End Task.

(** ** heapq

    [heappush], [heappop] and the two sift procedures follow [heapq.py] of the
    Python standard library, which [a_star_path] calls; the comparisons are
    made in the same order.

    The entries of the open set are tuples [(f, position)]. [Position] is a
    dataclass with the default [eq=True, order=False]: [==] compares the
    fields, [<] is not defined. Comparing two tuples with [<] looks for the
    first index at which they differ under [==] and applies [<] to the items
    found there; tuples equal at every index are not smaller. *)

Module heapq.
Definition item : Type := Z * Position.

Definition lt (a b : item) : exn + bool :=
  if decide (a.1 = b.1) then
    if decide (a.2 = b.2) then inr false else inl TypeError
  else inr (bool_decide (a.1 < b.1)).

(** The [while pos > startpos] loop of [_siftdown]; [pos] decreases at each
    turn, so [S pos] turns are never used up. *)
Fixpoint siftdown_loop (turns : nat) (heap : list item) (newitem : item)
    (startpos pos : nat) : exn + list item :=
  match turns with
  | O => inr (<[pos := newitem]> heap)
  | S turns' =>
      if decide (startpos < pos)%nat then
        let parentpos := ((pos - 1) / 2)%nat in
        match heap !! parentpos with
        | None => inl IndexError
        | Some parent =>
            b ← lt newitem parent;
            if b : bool then
              siftdown_loop turns' (<[pos := parent]> heap) newitem startpos parentpos
            else inr (<[pos := newitem]> heap)
        end
      else inr (<[pos := newitem]> heap)
  end.

Definition siftdown (heap : list item) (startpos pos : nat) : exn + list item :=
  match heap !! pos with
  | None => inl IndexError
  | Some newitem => siftdown_loop (S pos) heap newitem startpos pos
  end.

(** The [while childpos < endpos] loop of [_siftup]; it returns the heap
    and the position at which the loop stopped. [pos] grows at each turn and
    stays below [endpos]. *)
Fixpoint siftup_loop (turns : nat) (heap : list item) (endpos pos : nat)
    : exn + (list item * nat) :=
  match turns with
  | O => inr (heap, pos)
  | S turns' =>
      let childpos := (2 * pos + 1)%nat in
      if decide (childpos < endpos)%nat then
        let rightpos := (childpos + 1)%nat in
        pick ←
          (if decide (rightpos < endpos)%nat then
             match heap !! childpos, heap !! rightpos with
             | Some l, Some r =>
                 b ← lt l r; mret (if b : bool then childpos else rightpos)
             | _, _ => inl IndexError
             end
           else mret childpos);
        match heap !! pick with
        | None => inl IndexError
        | Some child => siftup_loop turns' (<[pos := child]> heap) endpos pick
        end
      else inr (heap, pos)
  end.

Definition siftup (heap : list item) (pos : nat) : exn + list item :=
  match heap !! pos with
  | None => inl IndexError
  | Some newitem =>
      '(heap', pos') ← siftup_loop (length heap) heap (length heap) pos;
      siftdown (<[pos' := newitem]> heap') pos pos'
  end.

Definition heappush (heap : list item) (x : item) : exn + list item :=
  siftdown (heap ++ [x]) 0 (length heap).

Definition heappop (heap : list item) : exn + (item * list item) :=
  match last heap with
  | None => inl IndexError
  | Some lastelt =>
      match removelast heap with
      | [] => inr (lastelt, [])
      | returnitem :: rest =>
          heap' ← siftup (lastelt :: rest) 0;
          mret (returnitem, heap')
      end
  end.
End heapq.

(** ** PathPlanner *)

Module PathPlanner.
Record t := mk {
  grid_width : Z;
  grid_height : Z;
  obstacles : gset (Z * Z)
}.

Definition init (grid_size : Z * Z) : t := mk grid_size.1 grid_size.2 ∅.

Definition key (p : Position) : Z * Z := (px p, py p).

Definition add_obstacle (pl : t) (position : Position) : t :=
  mk (grid_width pl) (grid_height pl) ({[ key position ]} ∪ obstacles pl).

Definition remove_obstacle (pl : t) (position : Position) : t :=
  mk (grid_width pl) (grid_height pl) (obstacles pl ∖ {[ key position ]}).

Definition heuristic (pos1 pos2 : Position) : Z :=
  Z.abs (px pos1 - px pos2) + Z.abs (py pos1 - py pos2).

(** up, right, down, left *)
Definition directions : list (Z * Z) := [(0, 1); (1, 0); (0, -1); (-1, 0)].

Definition free_cell (pl : t) (c : Z * Z) : Prop :=
  0 ≤ c.1 < grid_width pl ∧ 0 ≤ c.2 < grid_height pl ∧ c ∉ obstacles pl.

#[global] Instance free_cell_dec pl c : Decision (free_cell pl c).
Proof. unfold free_cell. apply _. Defined.

Definition get_neighbors (pl : t) (position : Position) : list Position :=
  omap (λ d : Z * Z,
          let c := (px position + d.1, py position + d.2) in
          if decide (free_cell pl c) then Some (mkPosition c.1 c.2) else None)
       directions.

(** The local variables of [a_star_path] that the loop updates. *)
Record search := mkSearch {
  open_set : list heapq.item;
  came_from : gmap (Z * Z) Position;
  g_score : gmap (Z * Z) Z;
  f_score : gmap (Z * Z) Z
}.

(** One turn of [for neighbor in self.get_neighbors(current)]. *)
Definition relax (goal current : Position) (st : search) (neighbor : Position)
    : exn + search :=
  match g_score st !! key current with
  | None => inl (KeyError "(x, y)")
  | Some g =>
      let tentative_g_score := g + 1 in
      let neighbor_key := key neighbor in
      let better :=
        match g_score st !! neighbor_key with
        | None => true
        | Some old => bool_decide (tentative_g_score < old)
        end in
      if better then
        let f := tentative_g_score + heuristic neighbor goal in
        heap ← heapq.heappush (open_set st) (f, neighbor);
        mret (mkSearch heap
                (<[neighbor_key := current]> (came_from st))
                (<[neighbor_key := tentative_g_score]> (g_score st))
                (<[neighbor_key := f]> (f_score st)))
      else mret st
  end.

Fixpoint relax_all (goal current : Position) (st : search)
    (neighbors : list Position) : exn + search :=
  match neighbors with
  | [] => mret st
  | n :: ns => st' ← relax goal current st n; relax_all goal current st' ns
  end.

(** The path reconstruction loop: [path] is appended to while the current
    position has a predecessor. [None] when [turns] run out. *)
Fixpoint walk_back (turns : nat) (cf : gmap (Z * Z) Position)
    (current_pos : Position) (path : list Position) : option (list Position) :=
  match turns with
  | O => None
  | S turns' =>
      match cf !! key current_pos with
      | Some prev => walk_back turns' cf prev (path ++ [current_pos])
      | None => Some path
      end
  end.

(** The [while open_set] loop. The result is [None] when [turns] run out
    before the loop ends, [Some (inl e)] when [e] is raised, [Some (inr p)]
    when [p] is returned. *)
Fixpoint search_loop (turns : nat) (pl : t) (start goal : Position) (st : search)
    : option (exn + list Position) :=
  match turns with
  | O => None
  | S turns' =>
      match open_set st with
      | [] => Some (inr [])
      | _ :: _ =>
          match heapq.heappop (open_set st) with
          | inl e => Some (inl e)
          | inr ((current_f, current), heap') =>
              if decide (px current = px goal ∧ py current = py goal) then
                path ← walk_back turns (came_from st) current [];
                Some (inr (reverse (path ++ [start])))
              else
                let st0 := mkSearch heap' (came_from st) (g_score st) (f_score st) in
                match relax_all goal current st0 (get_neighbors pl current) with
                | inl e => Some (inl e)
                | inr st' => search_loop turns' pl start goal st'
                end
          end
      end
  end.

Definition a_star_path (turns : nat) (pl : t) (start goal : Position)
    : option (exn + list Position) :=
  if decide (key start ∈ obstacles pl ∨ key goal ∈ obstacles pl) then Some (inr [])
  else
    search_loop turns pl start goal
      (mkSearch [(0, start)] ∅ {[ key start := 0 ]}
                {[ key start := heuristic start goal ]}).
End PathPlanner.

(** ** TMSSystem *)

(** [datetime.max], in microseconds since the start of year 1. *)
Definition datetime_max : Z := 315537897599999999.

(** [sorted(l, key=...)]: a stable sort that compares keys with [<] only. *)
Section Sorted.
Context {A : Type} (key_lt : A → A → bool).

Fixpoint insert_sorted (x : A) (l : list A) : list A :=
  match l with
  | [] => [x]
  | y :: l' => if key_lt y x then y :: insert_sorted x l' else x :: y :: l'
  end.

Definition sorted (l : list A) : list A := foldr insert_sorted [] l.
End Sorted.

(** [min(l, key=...)]: the first element whose key is minimal. *)
Fixpoint min_by {A : Type} (best : A * Z) (l : list (A * Z)) : A :=
  match l with
  | [] => best.1
  | c :: l' => min_by (if decide (c.2 < best.2) then c else best) l'
  end.

Module TMSSystem.
(** One line of [execution_log]; the source formats the same data into a
    sentence. *)
Inductive log_entry :=
| LogTake (warehouse_name : string) (quantity : Z) (product_name : string)
| LogTransfer (source_name : string) (quantity : Z) (product_name : string)
              (target_name : string)
| LogLoad (crane_name : string) (quantity : Z) (product_name : string)
| LogUnload (crane_name : string) (quantity : Z) (product_name : string).

Record t := mk {
  path_planner : PathPlanner.t;
  products : gmap string Product;
  warehouses : list (string * Warehouse.t);
  equipment : list (string * Equipment.t);
  tasks : list (string * Task.t);
  execution_log : list log_entry
}.

Definition init (grid_size : Z * Z) : t :=
  mk (PathPlanner.init grid_size) ∅ [] [] [] [].

Definition set_warehouse (s : t) (id : string) (w : Warehouse.t) : t :=
  mk (path_planner s) (products s) (Dict.set id w (warehouses s)) (equipment s)
     (tasks s) (execution_log s).

Definition set_equipment (s : t) (id : string) (e : Equipment.t) : t :=
  mk (path_planner s) (products s) (warehouses s) (Dict.set id e (equipment s))
     (tasks s) (execution_log s).

Definition set_task (s : t) (id : string) (task : Task.t) : t :=
  mk (path_planner s) (products s) (warehouses s) (equipment s)
     (Dict.set id task (tasks s)) (execution_log s).

Definition log (s : t) (entry : log_entry) : t :=
  mk (path_planner s) (products s) (warehouses s) (equipment s) (tasks s)
     (execution_log s ++ [entry]).

(** *** Registration. [db_ok] tells whether the [DatabaseManager] call
    returns; when it raises, the handler answers [False] after the registry
    was written. *)

Definition add_product (s : t) (id : string) (product : Product) (db_ok : bool)
    : bool * t :=
  (db_ok,
   mk (path_planner s) (<[id := product]> (products s)) (warehouses s)
      (equipment s) (tasks s) (execution_log s)).

Definition add_warehouse (s : t) (id : string) (warehouse : Warehouse.t)
    (db_ok : bool) : bool * t :=
  (db_ok, set_warehouse s id warehouse).

Definition add_equipment (s : t) (id : string) (e : Equipment.t) : bool * t :=
  (true,
   mk (PathPlanner.add_obstacle (path_planner s) (Equipment.position e))
      (products s) (warehouses s) (Dict.set id e (equipment s)) (tasks s)
      (execution_log s)).

Definition assign_equipment_to_task (s : t) (task_id equipment_id : string)
    : bool * t :=
  match Dict.get task_id (tasks s), Dict.get equipment_id (equipment s) with
  | Some task, Some e =>
      if negb (Equipment.can_perform_task e (Task.task_type task)) then (false, s)
      else if decide (Equipment.status e ≠ IDLE) then (false, s)
      else
        (true,
         set_equipment (set_task s task_id (Task.assign equipment_id task))
           equipment_id (Equipment.with_status e BUSY (Some task_id)))
  | _, _ => (false, s)
  end.

(** *** Effects. An effect returns the state it reached and the exception
    that stopped it, if any. *)

Definition effect : Type := t * option exn.

Definition holds (w : Warehouse.t) (product_id : string) (quantity : Z) : bool :=
  match Warehouse.products w !! product_id with
  | Some have => bool_decide (quantity ≤ have)
  | None => false
  end.

(** The inner [for warehouse in product_warehouses] loop of the ship
    transport effect, over the ids of the product warehouses. *)
Fixpoint take_from_first (s : t) (product_id : string) (quantity : Z)
    (ws : list (string * Warehouse.t)) : effect :=
  match ws with
  | [] => (s, None)
  | (wid, w) :: ws' =>
      if holds w product_id quantity then
        match products s !! product_id with
        | None => (s, Some (KeyError product_id))
        | Some product =>
            let w' := (Warehouse.remove_product w product_id quantity (volume product)).2 in
            (log (set_warehouse s wid w')
                 (LogTake (Warehouse.name w) quantity (product_name product)),
             None)
        end
      else take_from_first s product_id quantity ws'
  end.

Definition is_product_warehouse (w : Warehouse.t) : bool :=
  bool_decide (Warehouse.warehouse_type w = PRODUCT).

Fixpoint ship_lines (s : t) (lines : list (string * Z)) : effect :=
  match lines with
  | [] => (s, None)
  | (product_id, quantity) :: lines' =>
      let product_warehouses :=
        filter (λ kw, is_product_warehouse kw.2 = true) (warehouses s) in
      match take_from_first s product_id quantity product_warehouses with
      | (s', None) => ship_lines s' lines'
      | stopped => stopped
      end
  end.

Definition execute_ship_transport_task (s : t) (task : Task.t) : effect :=
  ship_lines s (default [] (Task.products (Task.meta task))).

(** One turn of the loop of the internal transfer effect. The source and
    the target are read back from the registry under their ids: the two
    ids may name the same warehouse object. *)
Definition transfer_line (s : t) (source_id target_id : string)
    (product_id : string) (quantity : Z) : effect :=
  match Dict.get source_id (warehouses s) with
  | None => (s, Some (KeyError source_id))
  | Some source =>
      if holds source product_id quantity then
        match products s !! product_id with
        | None => (s, Some (KeyError product_id))
        | Some product =>
            let source' :=
              (Warehouse.remove_product source product_id quantity (volume product)).2 in
            let s1 := set_warehouse s source_id source' in
            match Dict.get target_id (warehouses s1) with
            | None => (s1, Some (KeyError target_id))
            | Some target =>
                let target' :=
                  (Warehouse.add_product target product_id quantity (volume product)).2 in
                (log (set_warehouse s1 target_id target')
                     (LogTransfer (Warehouse.name source) quantity
                        (product_name product) (Warehouse.name target)),
                 None)
            end
        end
      else (s, None)
  end.

Fixpoint transfer_lines (s : t) (source_id target_id : string)
    (lines : list (string * Z)) : effect :=
  match lines with
  | [] => (s, None)
  | (product_id, quantity) :: lines' =>
      match transfer_line s source_id target_id product_id quantity with
      | (s', None) => transfer_lines s' source_id target_id lines'
      | stopped => stopped
      end
  end.

Definition execute_internal_transfer_task (s : t) (task : Task.t) : effect :=
  let m := Task.meta task in
  match Task.source_warehouse_id m with
  | None => (s, Some (KeyError "source_warehouse_id"))
  | Some source_id =>
      match Task.target_warehouse_id m with
      | None => (s, Some (KeyError "target_warehouse_id"))
      | Some target_id =>
          match Task.products m with
          | None => (s, Some (KeyError "products"))
          | Some lines =>
              match Dict.get source_id (warehouses s) with
              | None => (s, Some (KeyError source_id))
              | Some _ =>
                  match Dict.get target_id (warehouses s) with
                  | None => (s, Some (KeyError target_id))
                  | Some _ => transfer_lines s source_id target_id lines
                  end
              end
          end
      end
  end.

(** [[(id, c) for (id, eq) in equipment if isinstance(eq, Crane) and p(eq)]] *)
Definition cranes_where (p : Equipment.t → Crane.t → bool)
    (eqs : list (string * Equipment.t)) : list (string * Equipment.t * Crane.t) :=
  omap (λ ke : string * Equipment.t,
          match Equipment.as_crane ke.2 with
          | Some c => if p ke.2 c then Some (ke, c) else None
          | None => None
          end) eqs.

Definition execute_loading_task (s : t) (task : Task.t) : effect :=
  let m := Task.meta task in
  match Task.product_id m with
  | None => (s, Some (KeyError "product_id"))
  | Some product_id =>
      match Task.quantity m with
      | None => (s, Some (KeyError "quantity"))
      | Some quantity =>
          let available_cranes :=
            cranes_where (λ e _, bool_decide (Equipment.status e = IDLE)) (equipment s) in
          match available_cranes with
          | [] => (s, None)
          | (id, e, crane) :: _ =>
              match products s !! product_id with
              | None => (s, Some (KeyError product_id))
              | Some product =>
                  let crane' := (Crane.load_product crane product quantity).2 in
                  (log (set_equipment s id
                          (Equipment.with_variant e (Equipment.KCrane crane')))
                       (LogLoad (Equipment.name e) quantity (product_name product)),
                   None)
              end
          end
      end
  end.

Definition execute_unloading_task (s : t) (task : Task.t) : effect :=
  let m := Task.meta task in
  match Task.product_id m with
  | None => (s, Some (KeyError "product_id"))
  | Some product_id =>
      match Task.quantity m with
      | None => (s, Some (KeyError "quantity"))
      | Some quantity =>
          let loaded_cranes :=
            cranes_where
              (λ _ c, if Qlt_le_dec 0 (Crane.current_load c) then true else false)
              (equipment s) in
          match loaded_cranes with
          | [] => (s, None)
          | (id, e, crane) :: _ =>
              match products s !! product_id with
              | None => (s, Some (KeyError product_id))
              | Some product =>
                  let crane' := (Crane.unload_product crane product quantity).2 in
                  (log (set_equipment s id
                          (Equipment.with_variant e (Equipment.KCrane crane')))
                       (LogUnload (Equipment.name e) quantity (product_name product)),
                   None)
              end
          end
      end
  end.

(** The [if]/[elif] chain of [execute_task]; no branch for
    [MOVE_EQUIPMENT]. *)
Definition run_effect (s : t) (task : Task.t) : effect :=
  match Task.task_type task with
  | SHIP_TRANSPORT => execute_ship_transport_task s task
  | INTERNAL_TRANSFER => execute_internal_transfer_task s task
  | LOADING => execute_loading_task s task
  | UNLOADING => execute_unloading_task s task
  | MOVE_EQUIPMENT => (s, None)
  end.

(** The statements of the [try] block after [complete_task]: the release
    of the equipment, then [save_task]. *)
Definition release_and_save (s : t) (task : Task.t) (db_ok : bool) : effect :=
  let released :=
    match Task.assigned_equipment task with
    | None => (s, None)
    | Some equipment_id =>
        if decide (equipment_id = "") then (s, None)
        else
          match Dict.get equipment_id (equipment s) with
          | None => (s, Some (KeyError equipment_id))
          | Some e =>
              (set_equipment s equipment_id (Equipment.with_status e IDLE None), None)
          end
    end in
  match released with
  | (s', None) => (s', if db_ok then None else Some DatabaseError)
  | stopped => stopped
  end.

(** [t_start] and [t_end] are the two readings of the clock, [db_ok] the
    outcome of [save_task]. *)
Definition execute_task (s : t) (task_id : string) (t_start t_end : Z)
    (db_ok : bool) : bool * t :=
  match Dict.get task_id (tasks s) with
  | None => (false, s)
  | Some task =>
      let started := Task.start_execution t_start task in
      let s1 := set_task s task_id started in
      match run_effect s1 started with
      | (s2, Some e) => (false, set_task s2 task_id (Task.fail_task t_end e started))
      | (s2, None) =>
          let completed := Task.complete_task t_end started in
          let s3 := set_task s2 task_id completed in
          match release_and_save s3 completed db_ok with
          | (s4, Some e) =>
              (false, set_task s4 task_id (Task.fail_task t_end e completed))
          | (s4, None) => (true, s4)
          end
      end
  end.

(** *** Scheduling *)

Definition calculate_task_equipment_distance (s : t) (task : Task.t)
    (e : Equipment.t) : exn + Z :=
  match Task.source_warehouse_id (Task.meta task) with
  | Some source_id =>
      source_warehouse ← Dict.subscript source_id (warehouses s);
      mret (distance_to (Equipment.position e) (Warehouse.position source_warehouse))
  | None => mret 0
  end.

(** The sort key [(-x.priority, x.deadline or datetime.max)] and the
    lexicographic [<] of two such tuples. *)
Definition schedule_key (task : Task.t) : Z * Z :=
  (- Task.priority task, default datetime_max (Task.deadline task)).

Definition schedule_key_lt (a b : string * Task.t) : bool :=
  let ka := schedule_key a.2 in
  let kb := schedule_key b.2 in
  bool_decide (ka.1 < kb.1 ∨ (ka.1 = kb.1 ∧ ka.2 < kb.2)).

Definition suitable (task : Task.t) (ke : string * Equipment.t) : Prop :=
  Equipment.can_perform_task ke.2 (Task.task_type task) = true
  ∧ Equipment.status ke.2 = IDLE.

#[global] Instance suitable_dec task ke : Decision (suitable task ke).
Proof. unfold suitable. apply _. Defined.

(** The keys of [min]: the distance of every suitable equipment, in order;
    the first failing lookup raises. *)
Fixpoint distances (s : t) (task : Task.t) (es : list (string * Equipment.t))
    : exn + list (string * Z) :=
  match es with
  | [] => mret []
  | (id, e) :: es' =>
      d ← calculate_task_equipment_distance s task e;
      ds ← distances s task es';
      mret ((id, d) :: ds)
  end.

(** The body of [for task in sorted_tasks]. The task object of the loop is
    the one held by the registry, so its fields are read from the current
    state. *)
Definition schedule_task (s : t) (task_id : string) (schedule : list string)
    : t * (exn + list string) :=
  match Dict.get task_id (tasks s) with
  | None => (s, inl (KeyError task_id))
  | Some task =>
      let suitable_equipment := filter (suitable task) (equipment s) in
      match distances s task suitable_equipment with
      | inl e => (s, inl e)
      | inr [] => (s, inr schedule)
      | inr (first :: others) =>
          let best_equipment := min_by first others in
          let '(ok, s') := assign_equipment_to_task s task_id best_equipment in
          (s', inr (if ok : bool then schedule ++ [task_id] else schedule))
      end
  end.

Fixpoint schedule_loop (s : t) (sorted_tasks : list string) (schedule : list string)
    : t * (exn + list string) :=
  match sorted_tasks with
  | [] => (s, inr schedule)
  | task_id :: rest =>
      match schedule_task s task_id schedule with
      | (s', inr schedule') => schedule_loop s' rest schedule'
      | stopped => stopped
      end
  end.

Definition optimize_task_schedule (s : t) : t * (exn + list string) :=
  let pending_tasks :=
    filter (λ kt : string * Task.t, Task.status kt.2 = PENDING) (tasks s) in
  let sorted_tasks := sorted schedule_key_lt pending_tasks in
  schedule_loop s sorted_tasks.*1 [].
End TMSSystem.

(** ** TMSSystem: task creation and queries

    The rest of [TMSSystem]: [create_internal_transfer_task],
    [get_system_status] and the performance metrics of [generate_report]. *)

Module TMSQueries.
(** [create_internal_transfer_task]. [new_id] is the id that [Task.__post_init__]
    draws from [uuid4], [now] the reading of the clock for [created_at]. The
    task is in the registry before [save_task] is called: when that raises the
    answer is [None] and the task stays registered. *)
Definition create_internal_transfer_task (s : TMSSystem.t) (new_id : string) (now : Z)
    (source_warehouse_id target_warehouse_id : string)
    (products : list (string * Z)) (db_ok : bool) : option Task.t * TMSSystem.t :=
  let task :=
    Task.mk INTERNAL_TRANSFER 1 PENDING now None None None None []
      (Task.mkMeta None (Some products) (Some source_warehouse_id)
         (Some target_warehouse_id) None None None) in
  (if db_ok then Some task else None, TMSSystem.set_task s new_id task).

(** [len([x for x in d.values() if p(x)])] *)
Definition count_where {V : Type} (p : V → bool) (d : list (string * V)) : nat :=
  length (filter (λ kv : string * V, p kv.2 = true) d).

Definition has_task_status (st : TaskStatus) (task : Task.t) : bool :=
  bool_decide (Task.status task = st).

Definition has_equipment_status (st : EquipmentStatus) (e : Equipment.t) : bool :=
  bool_decide (Equipment.status e = st).

(** The dictionary that [get_system_status] returns. *)
Record system_status := mkStatus {
  total_products : nat;
  total_warehouses : nat;
  total_equipment : nat;
  active_tasks : nat;
  pending_tasks : nat;
  idle : nat;
  busy : nat;
  maintenance : nat;
  warehouse_utilization : list (string * Q)
}.

Definition get_system_status (s : TMSSystem.t) : system_status :=
  mkStatus
    (size (TMSSystem.products s))
    (length (TMSSystem.warehouses s))
    (length (TMSSystem.equipment s))
    (count_where (has_task_status IN_PROGRESS) (TMSSystem.tasks s))
    (count_where (has_task_status PENDING) (TMSSystem.tasks s))
    (count_where (has_equipment_status IDLE) (TMSSystem.equipment s))
    (count_where (has_equipment_status BUSY) (TMSSystem.equipment s))
    (count_where (has_equipment_status MAINTENANCE) (TMSSystem.equipment s))
    (prod_map id Warehouse.get_utilization_rate <$> TMSSystem.warehouses s).

(** [(t.end_time - t.start_time).total_seconds()], the clock counting
    microseconds; tasks without both readings are left out of the sum. *)
Definition execution_seconds (task : Task.t) : Q :=
  match Task.start_time task, Task.end_time task with
  | Some t0, Some t1 => (#(t1 - t0) / #1000000)%Q
  | _, _ => 0%Q
  end.

Definition completed_tasks (s : TMSSystem.t) : list (string * Task.t) :=
  filter (λ kt : string * Task.t, has_task_status COMPLETED kt.2 = true)
         (TMSSystem.tasks s).

Definition total_execution_time (s : TMSSystem.t) : Q :=
  foldr (λ kt acc, (execution_seconds kt.2 + acc)%Q) 0%Q (completed_tasks s).

(** The [performance_metrics] of [generate_report]. *)
Record performance_metrics := mkMetrics {
  total_completed_tasks : nat;
  average_execution_time : Q;
  task_success_rate : Q
}.

Definition generate_report_metrics (s : TMSSystem.t) : performance_metrics :=
  let completed := length (completed_tasks s) in
  let total := length (TMSSystem.tasks s) in
  mkMetrics completed
    (if decide (completed = 0%nat) then 0%Q
     else (total_execution_time s / #(Z.of_nat completed))%Q)
    (if decide (total = 0%nat) then 0%Q
     else (#(Z.of_nat completed) / #(Z.of_nat total) * #100)%Q).
End TMSQueries.

(** ** Callers in tms_api.py

    The two request handlers that drive [Warehouse.add_product],
    [Warehouse.remove_product], [PathPlanner.a_star_path] and
    [Equipment.move_to], after the request body was parsed: the arguments are
    the parsed fields, the result is the HTTP status code of the response and
    the state of the system. *)

Module Api.
(** [update_warehouse_inventory]: a positive quantity is stocked in, any
    other is stocked out by its absolute value. *)
Definition update_warehouse_inventory (s : TMSSystem.t)
    (warehouse_id product_id : string) (quantity : Z) : Z * TMSSystem.t :=
  match Dict.get warehouse_id (TMSSystem.warehouses s) with
  | None => (404, s)
  | Some warehouse =>
      match TMSSystem.products s !! product_id with
      | None => (404, s)
      | Some product =>
          let '(success, warehouse') :=
            if decide (0 < quantity)
            then Warehouse.add_product warehouse product_id quantity (volume product)
            else Warehouse.remove_product warehouse product_id (Z.abs quantity)
                   (volume product) in
          (if success : bool then 200 else 400,
           TMSSystem.set_warehouse s warehouse_id warehouse')
      end
  end.

(** [move_equipment]: the path is asked from the equipment's own position;
    an empty path and a [TypeError] both answer 400, any other exception is
    turned into 500 by [handle_api_errors]. [None] when the search runs out
    of turns. *)
Definition move_equipment (turns : nat) (s : TMSSystem.t) (equipment_id : string)
    (target_position : Position) : option (Z * TMSSystem.t) :=
  match Dict.get equipment_id (TMSSystem.equipment s) with
  | None => Some (404, s)
  | Some e =>
      outcome ← PathPlanner.a_star_path turns (TMSSystem.path_planner s)
                  (Equipment.position e) target_position;
      match outcome with
      | inl TypeError => Some (400, s)
      | inl _ => Some (500, s)
      | inr [] => Some (400, s)
      | inr (_ :: _) =>
          let '(success, e') := Equipment.move_to e target_position in
          Some (if success : bool then 200 else 400,
                TMSSystem.set_equipment s equipment_id e')
      end
  end.
End Api.

(** * Scenarios

    Concrete states, built with the registry's own operations where the
    source has one. *)

Definition grid (w h : Z) : PathPlanner.t := PathPlanner.init (w, h).

Definition origin : Position := mkPosition 0 0.

Definition steel : Product := mkProduct "steel" #10 #5 "metal" #5000.
Definition cement : Product := mkProduct "cement" #8 #4 "building" #800.

(** Scenario B: capacity 10, unit volume 2. *)
Definition small_warehouse : Warehouse.t := Warehouse.init "W" origin #10 TERMINAL.

(** A warehouse holding [quantity] units of one product of volume [vol]. *)
Definition stocked (nm : string) (cap : Q) (ty : WarehouseType)
    (product_id : string) (quantity : Z) (vol : Q) : Warehouse.t :=
  (Warehouse.add_product (Warehouse.init nm origin cap ty) product_id quantity vol).2.

Definition transfer_task (source target : string) (lines : list (string * Z)) : Task.t :=
  Task.mk INTERNAL_TRANSFER 1 PENDING 0 None None None None []
    (Task.mkMeta None (Some lines) (Some source) (Some target) None None None).

Definition truck : Equipment.t :=
  Equipment.mk "truck 1" (mkPosition 5 5) IDLE None
    (Equipment.KFrameTruck (FrameTruck.mk #100 None 0)).

(** A yard with the terminal warehouse [TW001] holding 10 units of steel
    (unit volume 5), the product warehouse [PW001] of capacity [target_cap],
    one idle frame truck [T001] and the task [T1]. *)
Definition yard (target_cap : Q) (task : Task.t) : TMSSystem.t :=
  let s0 := TMSSystem.init (20, 20) in
  let s1 := (TMSSystem.add_product s0 "P001" steel true).2 in
  let s2 := (TMSSystem.add_warehouse s1 "TW001"
               (stocked "terminal 1" #1000 TERMINAL "P001" 10 #5) true).2 in
  let s3 := (TMSSystem.add_warehouse s2 "PW001"
               (Warehouse.init "product 1" (mkPosition 10 10) target_cap PRODUCT) true).2 in
  let s4 := (TMSSystem.add_equipment s3 "T001" truck).2 in
  TMSSystem.set_task s4 "T1" task.

(** The same yard after [T001] was assigned to [T1]. *)
Definition assigned_yard (target_cap : Q) (task : Task.t) : TMSSystem.t :=
  (TMSSystem.assign_equipment_to_task (yard target_cap task) "T1" "T001").2.

(** The yard with a second idle truck [T002] and a second pending transfer
    task [T2]. *)
Definition two_task_yard : TMSSystem.t :=
  let s := yard #2000 (transfer_task "TW001" "PW001" [("P001", 4)]) in
  let truck2 := Equipment.mk "truck 2" (mkPosition 7 7) IDLE None
                  (Equipment.KFrameTruck (FrameTruck.mk #100 None 0)) in
  TMSSystem.set_task (TMSSystem.add_equipment s "T002" truck2).2 "T2"
    (transfer_task "TW001" "PW001" [("P001", 1)]).

(** The yard after [T1] was assigned [T001] and executed, with a new pending
    task [T2]. *)
Definition second_round_yard : TMSSystem.t :=
  let s := assigned_yard #2000 (transfer_task "TW001" "PW001" [("P001", 4)]) in
  TMSSystem.set_task (TMSSystem.execute_task s "T1" 1 2 true).2 "T2"
    (transfer_task "TW001" "PW001" [("P001", 1)]).

Definition loading_task (product_id : string) (quantity : Z) : Task.t :=
  Task.mk LOADING 1 PENDING 0 None None None None []
    (Task.mkMeta None None None None (Some product_id) (Some quantity) None).

Definition crane (nm : string) (place : Position) : Equipment.t :=
  Equipment.mk nm place IDLE None (Equipment.KCrane (Crane.mk "TW001" #50 0)).

(** The yard with two cranes of capacity 50, [C001] and [C002], and the
    loading task [T1] for [quantity] units of steel (unit weight 10),
    assigned [C001]. *)
Definition crane_yard (quantity : Z) : TMSSystem.t :=
  let s := yard #2000 (loading_task "P001" quantity) in
  let s1 := (TMSSystem.add_equipment s "C001" (crane "crane 1" (mkPosition 1 1))).2 in
  let s2 := (TMSSystem.add_equipment s1 "C002" (crane "crane 2" (mkPosition 2 2))).2 in
  (TMSSystem.assign_equipment_to_task s2 "T1" "C001").2.

Definition ship_task (lines : list (string * Z)) : Task.t :=
  Task.mk SHIP_TRANSPORT 1 PENDING 0 None None None None []
    (Task.mkMeta None (Some lines) None None None None None).

(** The yard after 4 units of steel were transferred to the product
    warehouse, with the ship transport task [S1] for 3 units. *)
Definition ship_yard : TMSSystem.t :=
  let s := yard #2000 (transfer_task "TW001" "PW001" [("P001", 4)]) in
  TMSSystem.set_task (TMSSystem.execute_task s "T1" 1 2 true).2 "S1"
    (ship_task [("P001", 3)]).

(** The quantity of a product that a registered warehouse holds. *)
Definition stock_of (s : TMSSystem.t) (warehouse_id product_id : string) : option Z :=
  w ← Dict.get warehouse_id (TMSSystem.warehouses s);
  Warehouse.products w !! product_id.

Definition volume_of (s : TMSSystem.t) (warehouse_id : string) : option Q :=
  Warehouse.current_volume <$> Dict.get warehouse_id (TMSSystem.warehouses s).

Definition task_status (s : TMSSystem.t) (task_id : string) : option TaskStatus :=
  Task.status <$> Dict.get task_id (TMSSystem.tasks s).

Definition task_failure (s : TMSSystem.t) (task_id : string) : option exn :=
  task ← Dict.get task_id (TMSSystem.tasks s);
  Task.failure_reason (Task.meta task).

Definition assigned_to (s : TMSSystem.t) (task_id : string) : option string :=
  task ← Dict.get task_id (TMSSystem.tasks s);
  Task.assigned_equipment task.

Definition equipment_status (s : TMSSystem.t) (equipment_id : string)
    : option EquipmentStatus :=
  Equipment.status <$> Dict.get equipment_id (TMSSystem.equipment s).

Definition equipment_task (s : TMSSystem.t) (equipment_id : string) : option string :=
  e ← Dict.get equipment_id (TMSSystem.equipment s);
  Equipment.current_task_id e.

(** * Vocabulary of the properties *)

(** ** Warehouse stock: volume accounting *)

Section WarehouseVolume.
(** The fixed unit volume of every product. *)
Variable unit_volume : string → Q.

(** [Σ quantity × unit volume] over the stored products. *)
Definition volume_sum (m : gmap string Z) : Q :=
  map_fold (λ p q acc, acc + scale (unit_volume p) q)%Q 0%Q m.

Inductive call :=
| Add (product_id : string) (quantity : Z)
| Remove (product_id : string) (quantity : Z).

Definition call_quantity (c : call) : Z :=
  match c with Add _ q | Remove _ q => q end.

Definition run_call (w : Warehouse.t) (c : call) : Warehouse.t :=
  match c with
  | Add p q => (Warehouse.add_product w p q (unit_volume p)).2
  | Remove p q => (Warehouse.remove_product w p q (unit_volume p)).2
  end.

(** The warehouse after each call of a sequence, in order. *)
Fixpoint states_after (w : Warehouse.t) (calls : list call) : list Warehouse.t :=
  match calls with
  | [] => []
  | c :: calls' => run_call w c :: states_after (run_call w c) calls'
  end.

Definition volume_accounted (w : Warehouse.t) : Prop :=
  (Warehouse.current_volume w == volume_sum (Warehouse.products w))%Q.

Definition volume_in_bounds (w : Warehouse.t) : Prop :=
  (0 <= Warehouse.current_volume w)%Q
  ∧ (Warehouse.current_volume w <= Warehouse.capacity w)%Q.

Definition stock_nonneg (w : Warehouse.t) : Prop :=
  ∀ p q, Warehouse.products w !! p = Some q → 0 ≤ q.

Definition warehouse_ok (w : Warehouse.t) : Prop :=
  volume_accounted w ∧ volume_in_bounds w ∧ stock_nonneg w.
End WarehouseVolume.

(** ** Registry, scheduling pass and paths *)

(** What a transfer line leaves alone: the catalog, the equipment, and the
    set of registered warehouse ids. *)
Definition same_registry (s s' : TMSSystem.t) : Prop :=
  TMSSystem.products s' = TMSSystem.products s
  ∧ TMSSystem.equipment s' = TMSSystem.equipment s
  ∧ ∀ k, is_Some (Dict.get k (TMSSystem.warehouses s'))
         ↔ is_Some (Dict.get k (TMSSystem.warehouses s)).

(** What one turn of the scheduling loop does to the registry: nothing, or
    the claim of an idle equipment [e] for a task [t]. *)
Inductive turn (c c' : TMSSystem.t) : option (string * string) → Prop :=
| turn_skip : c' = c → turn c c' None
| turn_claim t e :
    equipment_status c e = Some IDLE →
    (∀ t', assigned_to c' t' = if decide (t' = t) then Some e else assigned_to c t') →
    (∀ e', equipment_status c' e'
           = if decide (e' = e) then Some BUSY else equipment_status c e') →
    turn c c' (Some (t, e)).

(** Equipment that was Idle when the pass began and is Busy now. *)
Definition claimed (s c : TMSSystem.t) (e : string) : Prop :=
  equipment_status s e = Some IDLE ∧ equipment_status c e = Some BUSY.

(** The invariant of the scheduling loop: [s] is the state at the start of
    the pass, [c] the current state, [schedule] the ids appended so far. *)
Record pass_inv (s c : TMSSystem.t) (schedule : list string) : Prop := {
  inv_idle : ∀ e, equipment_status c e = Some IDLE → equipment_status s e = Some IDLE;
  inv_origin : ∀ t e,
    assigned_to c t = Some e → assigned_to s t = Some e ∨ claimed s c e;
  inv_sched : ∀ t, t ∈ schedule → ∃ e, assigned_to c t = Some e ∧ claimed s c e;
  inv_excl : ∀ t1 t2 e,
    t1 ≠ t2 → assigned_to c t1 = Some e → assigned_to c t2 = Some e →
    (t1 ∉ schedule ∨ t2 ∉ schedule)
    ∧ (assigned_to s t1 = Some e ∨ assigned_to s t2 = Some e)
}.

(** A grid path from [start] to [goal]. *)
Definition valid_path (pl : PathPlanner.t) (start goal : Position)
    (path : list Position) : Prop :=
  head path = Some start
  ∧ last path = Some goal
  ∧ Forall (λ p, PathPlanner.free_cell pl (PathPlanner.key p)) path
  ∧ ∀ i a b, path !! i = Some a → path !! S i = Some b → distance_to a b = 1.

Section PredecessorMap.
Variables (pl : PathPlanner.t) (start : Position).

Definition reached (cf : gmap (Z * Z) Position) (p : Position) : Prop :=
  p = start ∨ is_Some (cf !! PathPlanner.key p).

Definition link_ok (cf : gmap (Z * Z) Position) (k : Z * Z) (prev : Position) : Prop :=
  PathPlanner.free_cell pl k
  ∧ Z.abs (px prev - k.1) + Z.abs (py prev - k.2) = 1
  ∧ reached cf prev.

Definition came_from_ok (cf : gmap (Z * Z) Position) : Prop :=
  ∀ k prev, cf !! k = Some prev → link_ok cf k prev.

Definition search_ok (st : PathPlanner.search) : Prop :=
  came_from_ok (PathPlanner.came_from st)
  ∧ Forall (λ it : heapq.item, reached (PathPlanner.came_from st) it.2)
           (PathPlanner.open_set st).

(** The positions collected by the reconstruction loop, from [cur] back
    to, and without, [start]. *)
Inductive back_chain (cf : gmap (Z * Z) Position) : Position → list Position → Prop :=
| back_done : back_chain cf start []
| back_step cur prev chain :
    cf !! PathPlanner.key cur = Some prev →
    back_chain cf prev chain →
    back_chain cf cur (cur :: chain).
End PredecessorMap.

Definition in_bounds (pl : PathPlanner.t) (p : Position) : Prop :=
  0 ≤ px p < PathPlanner.grid_width pl ∧ 0 ≤ py p < PathPlanner.grid_height pl.

(** ** Stock entries, parked equipment and schedule order *)

(** The stock of a product is absent or positive, never an entry of 0 or
    less. *)
Definition positive_stock (m : gmap string Z) (p : string) : Prop :=
  ∀ have, m !! p = Some have → 0 < have.

(** No product is kept with a quantity of 0 or less. *)
Definition positive_entries (w : Warehouse.t) : Prop :=
  ∀ p, positive_stock (Warehouse.products w) p.

(** Every registered equipment stands on a cell that the planner holds as an
    obstacle. *)
Definition parked (s : TMSSystem.t) : Prop :=
  ∀ ke, ke ∈ TMSSystem.equipment s →
        PathPlanner.key (Equipment.position ke.2)
        ∈ PathPlanner.obstacles (TMSSystem.path_planner s).

(** [s'] has the planner of [s], and its equipment stands where some
    equipment of [s] stands. *)
Definition same_places (s s' : TMSSystem.t) : Prop :=
  TMSSystem.path_planner s' = TMSSystem.path_planner s
  ∧ ∀ ke', ke' ∈ TMSSystem.equipment s' →
           ∃ ke, ke ∈ TMSSystem.equipment s
                 ∧ Equipment.position ke'.2 = Equipment.position ke.2.

(** The order of the scheduler: [a] is not after [b] when its priority is
    higher, or equal with a deadline that is not later ([datetime.max]
    standing for no deadline). *)
Definition schedule_before (a b : string * Task.t) : Prop :=
  Task.priority b.2 < Task.priority a.2
  ∨ (Task.priority a.2 = Task.priority b.2
     ∧ default datetime_max (Task.deadline a.2)
       ≤ default datetime_max (Task.deadline b.2)).

(** The unit volume that the catalog gives to a product, 0 for an id that
    is not registered. *)
Definition catalog_volume (s : TMSSystem.t) (product_id : string) : Q :=
  default 0%Q (volume <$> TMSSystem.products s !! product_id).

(** [s'] has the catalog and the planner of [s] and the same ids, in the
    same order, in its three registries. *)
Definition same_ids (s s' : TMSSystem.t) : Prop :=
  TMSSystem.products s' = TMSSystem.products s
  ∧ TMSSystem.path_planner s' = TMSSystem.path_planner s
  ∧ (TMSSystem.tasks s').*1 = (TMSSystem.tasks s).*1
  ∧ (TMSSystem.warehouses s').*1 = (TMSSystem.warehouses s).*1
  ∧ (TMSSystem.equipment s').*1 = (TMSSystem.equipment s).*1.

(** [t'] is [t], or [t] with another assigned equipment. *)
Definition reassigned (t' t : Task.t) : Prop :=
  t' = t ∨ ∃ e, t' = Task.assign e t.

(** What a scheduling pass leaves alone: the catalog, the warehouses, the
    log and the planner; the tasks keep their ids and their order, and a
    task changes in its assigned equipment at most. *)
Definition only_assigns (s s' : TMSSystem.t) : Prop :=
  TMSSystem.products s' = TMSSystem.products s
  ∧ TMSSystem.warehouses s' = TMSSystem.warehouses s
  ∧ TMSSystem.execution_log s' = TMSSystem.execution_log s
  ∧ TMSSystem.path_planner s' = TMSSystem.path_planner s
  ∧ Forall2 (λ kt' kt : string * Task.t, kt'.1 = kt.1 ∧ reassigned kt'.2 kt.2)
            (TMSSystem.tasks s') (TMSSystem.tasks s).

(** The pending tasks of the registry, in its order. *)
Definition pending (s : TMSSystem.t) : list (string * Task.t) :=
  filter (λ kt : string * Task.t, Task.status kt.2 = PENDING) (TMSSystem.tasks s).

(** No id is held twice: what a dictionary guarantees of its keys. *)
Definition unique_ids {V : Type} (d : list (string * V)) : Prop := NoDup d.*1.

(** * Properties *)

(** ** Warehouse stock: volume accounting *)

Lemma Qplus_swap (x a b : Q) : (x + a + b = x + b + a)%Q.
Proof.
  destruct x as [xn xd], a as [an ad], b as [bn bd].
  unfold Qplus; cbn [Qnum Qden]. f_equal; lia.
Qed.

Section WarehouseVolumeFacts.
Variable unit_volume : string → Q.
Hypothesis unit_volume_nonneg : ∀ p, (0 <= unit_volume p)%Q.

#[local] Abbreviation Σ := (volume_sum unit_volume).

Lemma volume_sum_empty : Σ ∅ = 0%Q.
Proof. unfold volume_sum. apply map_fold_empty. Qed.

Lemma volume_sum_fresh (m : gmap string Z) p q :
  m !! p = None → Σ (<[p := q]> m) = (Σ m + scale (unit_volume p) q)%Q.
Proof.
  intros Hp. unfold volume_sum.
  rewrite map_fold_insert_L; [done | | done].
  intros. apply Qplus_swap.
Qed.

Lemma volume_sum_insert (m : gmap string Z) p q :
  Σ (<[p := q]> m) = (Σ (delete p m) + scale (unit_volume p) q)%Q.
Proof.
  rewrite <- (insert_delete_eq m p q).
  apply volume_sum_fresh, lookup_delete_eq.
Qed.

Lemma volume_sum_lookup (m : gmap string Z) p q :
  m !! p = Some q → Σ m = (Σ (delete p m) + scale (unit_volume p) q)%Q.
Proof.
  intros Hp. rewrite <- (insert_id m p q Hp) at 1. apply volume_sum_insert.
Qed.

Lemma scale_nonneg v q : (0 <= v)%Q → 0 ≤ q → (0 <= scale v q)%Q.
Proof.
  intros Hv Hq. unfold scale. apply Qmult_le_0_compat; [done |].
  change 0%Q with (inject_Z 0). by rewrite <- Zle_Qle.
Qed.

Lemma scale_plus v a b : (scale v (a + b) == scale v a + scale v b)%Q.
Proof. unfold scale. rewrite inject_Z_plus. ring. Qed.

Lemma scale_minus v a b : (scale v (a - b) == scale v a - scale v b)%Q.
Proof.
  unfold scale, Z.sub. rewrite inject_Z_plus, inject_Z_opp. ring.
Qed.

Lemma volume_sum_nonneg (m : gmap string Z) :
  (∀ p q, m !! p = Some q → 0 ≤ q) → (0 <= Σ m)%Q.
Proof.
  induction m as [| p q m Hp _ IH] using map_first_key_ind.
  - intros _. rewrite volume_sum_empty. apply Qle_refl.
  - intros Hm. rewrite volume_sum_fresh by done.
    assert (0 <= Σ m)%Q as H1.
    { apply IH. intros p' q' Hq'. apply (Hm p').
      rewrite lookup_insert_ne; [done | congruence]. }
    assert (0 <= scale (unit_volume p) q)%Q as H2.
    { apply scale_nonneg; [done |]. apply (Hm p). apply lookup_insert_eq. }
    lra.
Qed.

Lemma stock_nonneg_delete (m : gmap string Z) p :
  (∀ p' q, m !! p' = Some q → 0 ≤ q) →
  ∀ p' q, delete p m !! p' = Some q → 0 ≤ q.
Proof.
  intros Hm p' q Hq. apply (Hm p').
  apply lookup_delete_Some in Hq. tauto.
Qed.

Lemma add_product_ok w p q :
  0 ≤ q → warehouse_ok unit_volume w →
  warehouse_ok unit_volume (Warehouse.add_product w p q (unit_volume p)).2.
Proof.
  intros Hq (Hacc & [Hlo Hhi] & Hst). unfold Warehouse.add_product.
  destruct (Qlt_le_dec _ _) as [Hfull | Hfits]; [done |].
  pose proof (scale_nonneg _ _ (unit_volume_nonneg p) Hq) as Hsc.
  split; [| split].
  - unfold volume_accounted in *. cbn.
    rewrite Hacc, volume_sum_insert.
    destruct (Warehouse.products w !! p) as [have |] eqn:Hp; cbn.
    + rewrite (volume_sum_lookup _ _ _ Hp), scale_plus. ring.
    + rewrite (delete_id _ _ Hp). reflexivity.
  - split; cbn; [lra | done].
  - intros p' q'. cbn. rewrite lookup_insert. case_decide.
    + intros [= <-]. destruct (Warehouse.products w !! p) as [have |] eqn:Hp; cbn.
      * specialize (Hst _ _ Hp). lia.
      * lia.
    + apply Hst.
Qed.

Lemma remove_product_ok w p q :
  0 ≤ q → warehouse_ok unit_volume w →
  warehouse_ok unit_volume (Warehouse.remove_product w p q (unit_volume p)).2.
Proof.
  intros Hq (Hacc & [Hlo Hhi] & Hst). unfold Warehouse.remove_product.
  destruct (Warehouse.products w !! p) as [have |] eqn:Hp; [| done].
  case_decide as Hlt; [done |].
  pose proof (scale_nonneg _ _ (unit_volume_nonneg p) Hq) as Hsc.
  pose proof (volume_sum_lookup _ _ _ Hp) as Hsum.
  pose proof (volume_sum_nonneg _ (stock_nonneg_delete _ p Hst)) as Hrest.
  pose proof (scale_minus (unit_volume p) have q) as Hminus.
  assert (0 <= scale (unit_volume p) (have - q))%Q as Hleft.
  { apply scale_nonneg; [done | lia]. }
  unfold volume_accounted in Hacc. rewrite Hsum in Hacc.
  split; [| split].
  - unfold volume_accounted. cbn. case_decide as Hz.
    + rewrite Hacc. replace have with q by lia. ring.
    + rewrite volume_sum_insert, Hacc, Hminus. ring.
  - split; cbn; lra.
  - intros p' q'. cbn. case_decide as Hz.
    + apply stock_nonneg_delete, Hst.
    + rewrite lookup_insert. case_decide; [intros [= <-]; lia | apply Hst].
Qed.

Lemma run_call_ok w c :
  0 ≤ call_quantity c → warehouse_ok unit_volume w →
  warehouse_ok unit_volume (run_call unit_volume w c).
Proof.
  destruct c; cbn; [apply add_product_ok | apply remove_product_ok].
Qed.

Lemma states_after_ok calls : ∀ w,
  Forall (λ c, 0 ≤ call_quantity c) calls → warehouse_ok unit_volume w →
  Forall (warehouse_ok unit_volume) (states_after unit_volume w calls).
Proof.
  induction calls as [| c calls IH]; intros w Hcalls Hw; cbn; [constructor |].
  inversion_clear Hcalls as [| ? ? Hc Hrest].
  pose proof (run_call_ok w c Hc Hw). constructor; [done | by apply IH].
Qed.

Lemma init_ok nm pos cap ty :
  (0 <= cap)%Q → warehouse_ok unit_volume (Warehouse.init nm pos cap ty).
Proof.
  intros Hcap. split; [| split].
  - unfold volume_accounted. cbn. rewrite volume_sum_empty. reflexivity.
  - split; cbn; [apply Qle_refl | done].
  - intros p q. cbn. by rewrite lookup_empty.
Qed.
End WarehouseVolumeFacts.

Lemma add_product_rejected w p q v :
  (Warehouse.capacity w < Warehouse.current_volume w + scale v q)%Q →
  Warehouse.add_product w p q v = (false, w).
Proof.
  intros Hfull. unfold Warehouse.add_product.
  destruct (Qlt_le_dec _ _) as [| Hfits]; [done |].
  exfalso. apply (Qlt_not_le _ _ Hfull Hfits).
Qed.

(** ** C4: volume accounting of a warehouse *)




(** ** Facts about insertion-ordered dictionaries *)

Section DictFacts.
Context {V : Type}.
Implicit Types (d : list (string * V)) (k : string) (v : V).

Lemma dict_get_set d k k' v :
  Dict.get k (Dict.set k' v d) = if decide (k = k') then Some v else Dict.get k d.
Proof.
  induction d as [| [k0 v0] d IH]; cbn.
  - by repeat case_decide.
  - destruct (decide (k' = k0)) as [-> |]; cbn; repeat case_decide; congruence.
Qed.

Lemma dict_get_set_eq d k v : Dict.get k (Dict.set k v d) = Some v.
Proof. rewrite dict_get_set. by case_decide. Qed.

Lemma dict_get_set_ne d k k' v :
  k ≠ k' → Dict.get k (Dict.set k' v d) = Dict.get k d.
Proof. intros. rewrite dict_get_set. by case_decide. Qed.

Lemma dict_set_set d k v v' : Dict.set k v' (Dict.set k v d) = Dict.set k v' d.
Proof.
  induction d as [| [k0 v0] d IH]; cbn.
  - by case_decide.
  - destruct (decide (k = k0)) as [-> |]; cbn; case_decide; congruence.
Qed.

Lemma dict_keys_set d k v :
  is_Some (Dict.get k d) → (Dict.set k v d).*1 = d.*1.
Proof.
  induction d as [| [k0 v0] d IH]; cbn.
  - by intros [? [=]].
  - case_decide as Hk; cbn; [by subst | intros; f_equal; auto].
Qed.
End DictFacts.

(** ** C3: a transfer line whose add is refused *)

(** C3, evaluated at a failing input. [TW001] holds 10 units of steel (unit
    volume 5), [PW001] has capacity 20 and the task moves 5 units (volume
    25). The line is half applied: the source loses the 5 units and their
    volume, the target refuses them, the log records a transfer and the task
    completes. *)
Theorem transfer_line_half_applied :
  let s := yard #20 (transfer_task "TW001" "PW001" [("P001", 5)]) in
  let r := TMSSystem.execute_task s "T1" 1 2 true in
  stock_of s "TW001" "P001" = Some 10
  ∧ volume_of s "TW001" = Some #50
  ∧ r.1 = true
  ∧ task_status r.2 "T1" = Some COMPLETED
  ∧ stock_of r.2 "TW001" "P001" = Some 5
  ∧ volume_of r.2 "TW001" = Some #25
  ∧ stock_of r.2 "PW001" "P001" = None
  ∧ volume_of r.2 "PW001" = Some 0%Q
  ∧ TMSSystem.execution_log r.2
    = [TMSSystem.LogTransfer "terminal 1" 5 "steel" "product 1"].
Proof. by vm_compute. Qed.

(** ** C1: the equipment of a failed task *)

(** Whenever the effect raises, [execute_task] answers failure and leaves
    the equipment registry as the effect left it: nothing is released. *)
Lemma raising_effect_releases_nothing s task_id task t_start t_end db_ok s2 e :
  Dict.get task_id (TMSSystem.tasks s) = Some task →
  TMSSystem.run_effect
    (TMSSystem.set_task s task_id (Task.start_execution t_start task))
    (Task.start_execution t_start task) = (s2, Some e) →
  let r := TMSSystem.execute_task s task_id t_start t_end db_ok in
  r.1 = false
  ∧ task_status r.2 task_id = Some FAILED
  ∧ TMSSystem.equipment r.2 = TMSSystem.equipment s2.
Proof.
  intros Hget Heff. cbv zeta. unfold TMSSystem.execute_task.
  rewrite Hget, Heff. cbn [fst snd]. split; [done |]. split; [| done].
  unfold task_status; cbn. by rewrite dict_get_set_eq.
Qed.

(** C1, evaluated at a failing input. [T001] is assigned to [T1], whose source
    warehouse [TW404] is not registered: the effect raises, the task ends
    Failed, and [T001] stays Busy with [T1] as its current task. With the
    registered source [TW001] the same call ends Completed and releases
    [T001]. *)
Theorem failed_task_keeps_equipment_busy :
  let s := assigned_yard #2000 (transfer_task "TW404" "PW001" [("P001", 5)]) in
  let r := TMSSystem.execute_task s "T1" 1 2 true in
  let s' := assigned_yard #2000 (transfer_task "TW001" "PW001" [("P001", 5)]) in
  let r' := TMSSystem.execute_task s' "T1" 1 2 true in
  assigned_to s "T1" = Some "T001"
  ∧ equipment_status s "T001" = Some BUSY
  ∧ r.1 = false
  ∧ task_status r.2 "T1" = Some FAILED
  ∧ task_failure r.2 "T1" = Some (KeyError "TW404")
  ∧ equipment_status r.2 "T001" = Some BUSY
  ∧ equipment_task r.2 "T001" = Some "T1"
  ∧ r'.1 = true
  ∧ task_status r'.2 "T1" = Some COMPLETED
  ∧ equipment_status r'.2 "T001" = Some IDLE
  ∧ equipment_task r'.2 "T001" = None.
Proof. by vm_compute. Qed.

(** ** C9: registration under an id already present *)

(** C9, as amended. Registration never looks for the id: the entity is
    stored under it, replacing what was there; the answer is success unless
    the persistence call raises, which happens after the registry was
    written; registering equipment also marks its cell as an obstacle. *)
Theorem registration_overwrites (s : TMSSystem.t) (id : string)
    (product : Product) (warehouse : Warehouse.t) (e : Equipment.t) (db_ok : bool) :
  ((TMSSystem.add_product s id product db_ok).1 = db_ok
   ∧ TMSSystem.products (TMSSystem.add_product s id product db_ok).2 !! id
     = Some product)
  ∧ ((TMSSystem.add_warehouse s id warehouse db_ok).1 = db_ok
     ∧ Dict.get id (TMSSystem.warehouses (TMSSystem.add_warehouse s id warehouse db_ok).2)
       = Some warehouse)
  ∧ ((TMSSystem.add_equipment s id e).1 = true
     ∧ Dict.get id (TMSSystem.equipment (TMSSystem.add_equipment s id e).2) = Some e
     ∧ (PathPlanner.key (Equipment.position e)
        ∈ PathPlanner.obstacles
            (TMSSystem.path_planner (TMSSystem.add_equipment s id e).2))).
Proof.
  repeat split; cbn.
  - apply lookup_insert_eq.
  - apply dict_get_set_eq.
  - apply dict_get_set_eq.
  - set_solver.
Qed.

(** C9 as stated fails: [P001] and [T001] are registered, registering
    another product and another piece of equipment under these ids succeeds,
    replaces them and marks a new obstacle cell. *)
Lemma registration_counterexample :
  let s := yard #2000 (transfer_task "TW001" "PW001" [("P001", 5)]) in
  let crane := Equipment.mk "crane 9" (mkPosition 3 3) IDLE None
                 (Equipment.KCrane (Crane.mk "TW001" #50 0)) in
  let r := TMSSystem.add_product s "P001" cement true in
  let r' := TMSSystem.add_equipment s "T001" crane in
  TMSSystem.products s !! "P001" = Some steel
  ∧ r.1 = true
  ∧ TMSSystem.products r.2 !! "P001" = Some cement
  ∧ Dict.get "T001" (TMSSystem.equipment s) = Some truck
  ∧ ((3, 3) ∉ PathPlanner.obstacles (TMSSystem.path_planner s))
  ∧ r'.1 = true
  ∧ Dict.get "T001" (TMSSystem.equipment r'.2) = Some crane
  ∧ ((3, 3) ∈ PathPlanner.obstacles (TMSSystem.path_planner r'.2)).
Proof.
  cbv zeta. repeat split; by vm_compute.
Qed.

(** ** C8: execute_task and the status of the task *)

Lemma take_from_first_tasks s p q ws :
  TMSSystem.tasks (TMSSystem.take_from_first s p q ws).1 = TMSSystem.tasks s.
Proof.
  induction ws as [| [wid w] ws IH]; cbn; [done |].
  destruct (TMSSystem.holds w p q); [| done].
  by destruct (TMSSystem.products s !! p).
Qed.

Lemma ship_lines_tasks lines : ∀ s,
  TMSSystem.tasks (TMSSystem.ship_lines s lines).1 = TMSSystem.tasks s.
Proof.
  induction lines as [| [p q] lines IH]; intros s; cbn; [done |].
  pose proof (take_from_first_tasks s p q
    (filter (λ kw, TMSSystem.is_product_warehouse kw.2 = true)
            (TMSSystem.warehouses s))) as Ht.
  destruct (TMSSystem.take_from_first _ _ _ _) as [s' [e |]]; cbn in *; [done |].
  by rewrite IH.
Qed.

Lemma transfer_line_tasks s src tgt p q :
  TMSSystem.tasks (TMSSystem.transfer_line s src tgt p q).1 = TMSSystem.tasks s.
Proof.
  unfold TMSSystem.transfer_line.
  destruct (Dict.get src _); [| done].
  destruct (TMSSystem.holds _ _ _); [| done].
  destruct (TMSSystem.products s !! p); [| done].
  by destruct (Dict.get tgt _).
Qed.

Lemma transfer_lines_tasks src tgt lines : ∀ s,
  TMSSystem.tasks (TMSSystem.transfer_lines s src tgt lines).1 = TMSSystem.tasks s.
Proof.
  induction lines as [| [p q] lines IH]; intros s; cbn; [done |].
  pose proof (transfer_line_tasks s src tgt p q) as Ht.
  destruct (TMSSystem.transfer_line _ _ _ _ _) as [s' [e |]]; cbn in *; [done |].
  by rewrite IH.
Qed.

Lemma run_effect_tasks s task :
  TMSSystem.tasks (TMSSystem.run_effect s task).1 = TMSSystem.tasks s.
Proof.
  unfold TMSSystem.run_effect. destruct (Task.task_type task); [| | | | done].
  - apply ship_lines_tasks.
  - unfold TMSSystem.execute_internal_transfer_task.
    repeat case_match; try done. apply transfer_lines_tasks.
  - unfold TMSSystem.execute_loading_task. by repeat case_match.
  - unfold TMSSystem.execute_unloading_task. by repeat case_match.
Qed.

Lemma release_and_save_tasks s task db_ok :
  TMSSystem.tasks (TMSSystem.release_and_save s task db_ok).1 = TMSSystem.tasks s.
Proof. unfold TMSSystem.release_and_save. by repeat case_match; simplify_eq. Qed.

Lemma set_task_set_task s id task task' :
  TMSSystem.set_task (TMSSystem.set_task s id task) id task'
  = TMSSystem.set_task s id task'.
Proof. unfold TMSSystem.set_task; cbn. by rewrite dict_set_set. Qed.

Lemma task_status_set_task s id task :
  task_status (TMSSystem.set_task s id task) id = Some (Task.status task).
Proof. unfold task_status; cbn. by rewrite dict_get_set_eq. Qed.

(** C8, as amended. [execute_task] does not read the status of the task:
    whatever it is (Pending, InProgress, Completed, Failed or Cancelled) the
    call sets the task InProgress, runs the effect of its type and leaves it
    Completed or Failed, with the same answer and the same final state as for
    any other status. *)
Theorem execute_task_ignores_status (s : TMSSystem.t) (task_id : string)
    (task : Task.t) (st st' : TaskStatus) (t_start t_end : Z) (db_ok : bool) :
  let run st := TMSSystem.execute_task
                  (TMSSystem.set_task s task_id (Task.with_status st task))
                  task_id t_start t_end db_ok in
  run st = run st'
  ∧ (task_status (run st).2 task_id = Some COMPLETED
     ∨ task_status (run st).2 task_id = Some FAILED).
Proof.
  cbv zeta. unfold TMSSystem.execute_task.
  cbn [TMSSystem.set_task TMSSystem.tasks]. rewrite !dict_get_set_eq.
  change (Task.start_execution t_start (Task.with_status st task))
    with (Task.start_execution t_start task).
  change (Task.start_execution t_start (Task.with_status st' task))
    with (Task.start_execution t_start task).
  fold (TMSSystem.set_task s task_id (Task.with_status st task)).
  fold (TMSSystem.set_task s task_id (Task.with_status st' task)).
  rewrite !set_task_set_task. split; [done |].
  destruct (TMSSystem.run_effect _ _) as [s2 [e |]] eqn:Heff.
  - right. apply task_status_set_task.
  - destruct (TMSSystem.release_and_save _ _ _) as [s4 [e |]] eqn:Hrel.
    + right. apply task_status_set_task.
    + left. cbn [snd]. unfold task_status.
      pose proof (release_and_save_tasks
        (TMSSystem.set_task s2 task_id
           (Task.complete_task t_end (Task.start_execution t_start task)))
        (Task.complete_task t_end (Task.start_execution t_start task)) db_ok) as Ht.
      rewrite Hrel in Ht. cbn [fst] in Ht. rewrite Ht. cbn.
      by rewrite dict_get_set_eq.
Qed.

(** C8 as stated fails: executing the Completed task [T1] again passes it
    through InProgress and applies the transfer a second time. *)
Lemma execute_task_counterexample :
  let s := yard #2000 (transfer_task "TW001" "PW001" [("P001", 4)]) in
  let s1 := (TMSSystem.execute_task s "T1" 1 2 true).2 in
  let r := TMSSystem.execute_task s1 "T1" 3 4 true in
  task_status s1 "T1" = Some COMPLETED
  ∧ stock_of s1 "TW001" "P001" = Some 6
  ∧ stock_of s1 "PW001" "P001" = Some 4
  ∧ (Task.status ∘ Task.start_execution 3 <$> Dict.get "T1" (TMSSystem.tasks s1))
    = Some IN_PROGRESS
  ∧ r.1 = true
  ∧ task_status r.2 "T1" = Some COMPLETED
  ∧ stock_of r.2 "TW001" "P001" = Some 2
  ∧ stock_of r.2 "PW001" "P001" = Some 8
  ∧ (Task.start_time <$> Dict.get "T1" (TMSSystem.tasks r.2)) = Some (Some 3).
Proof. by vm_compute. Qed.

(** ** C2: an internal transfer asking for more than the source holds *)

Lemma remove_product_other w p p' q v :
  p ≠ p' →
  Warehouse.products (Warehouse.remove_product w p' q v).2 !! p
  = Warehouse.products w !! p.
Proof.
  intros Hne. unfold Warehouse.remove_product.
  destruct (Warehouse.products w !! p'); [| done].
  case_decide; [done |]. cbn. case_decide.
  - by rewrite lookup_delete_ne.
  - by rewrite lookup_insert_ne.
Qed.

Lemma add_product_other w p p' q v :
  p ≠ p' →
  Warehouse.products (Warehouse.add_product w p' q v).2 !! p
  = Warehouse.products w !! p.
Proof.
  intros Hne. unfold Warehouse.add_product.
  destruct (Qlt_le_dec _ _); [done |]. cbn. by rewrite lookup_insert_ne.
Qed.

Lemma stock_of_set_warehouse s k w w' wid p :
  Dict.get k (TMSSystem.warehouses s) = Some w →
  Warehouse.products w' !! p = Warehouse.products w !! p →
  stock_of (TMSSystem.set_warehouse s k w') wid p = stock_of s wid p.
Proof.
  intros Hk Hp. unfold stock_of; cbn. rewrite dict_get_set.
  case_decide; [subst; rewrite Hk; cbn; done | done].
Qed.

Lemma stock_of_log s entry wid p :
  stock_of (TMSSystem.log s entry) wid p = stock_of s wid p.
Proof. done. Qed.

Lemma transfer_line_other_stock s src tgt p p' q' wid :
  p ≠ p' →
  stock_of (TMSSystem.transfer_line s src tgt p' q').1 wid p = stock_of s wid p.
Proof.
  intros Hne. unfold TMSSystem.transfer_line.
  destruct (Dict.get src (TMSSystem.warehouses s)) as [source |] eqn:Hsrc; [| done].
  destruct (TMSSystem.holds _ _ _); [| done].
  destruct (TMSSystem.products s !! p') as [product |]; [| done].
  assert (∀ wid', stock_of (TMSSystem.set_warehouse s src
            (Warehouse.remove_product source p' q' (volume product)).2) wid' p
          = stock_of s wid' p) as Hs1.
  { intros wid'. eapply stock_of_set_warehouse; [done |].
    by apply remove_product_other. }
  destruct (Dict.get tgt _) as [target |] eqn:Htgt; cbn [fst]; [| apply Hs1].
  rewrite stock_of_log, <- Hs1.
  eapply stock_of_set_warehouse; [done |]. by apply add_product_other.
Qed.

Lemma holds_false s src source p q :
  Dict.get src (TMSSystem.warehouses s) = Some source →
  default 0 (stock_of s src p) < q →
  TMSSystem.holds source p q = false.
Proof.
  intros Hsrc. unfold stock_of, TMSSystem.holds. rewrite Hsrc; cbn.
  destruct (Warehouse.products source !! p); cbn; [| done].
  intros. apply bool_decide_eq_false. lia.
Qed.

Lemma transfer_line_skipped s src tgt p q :
  default 0 (stock_of s src p) < q →
  (TMSSystem.transfer_line s src tgt p q).1 = s.
Proof.
  intros Hq. unfold TMSSystem.transfer_line.
  destruct (Dict.get src _) as [source |] eqn:Hsrc; [| done].
  by rewrite (holds_false _ _ _ _ _ Hsrc Hq).
Qed.

Lemma transfer_lines_keep_stock src tgt p lines : ∀ s,
  (∀ q, (p, q) ∈ lines → default 0 (stock_of s src p) < q) →
  ∀ wid, stock_of (TMSSystem.transfer_lines s src tgt lines).1 wid p = stock_of s wid p.
Proof.
  induction lines as [| [p' q'] lines IH]; intros s Hlines wid; cbn; [done |].
  assert (∀ wid', stock_of (TMSSystem.transfer_line s src tgt p' q').1 wid' p
                  = stock_of s wid' p) as Hline.
  { intros wid'. destruct (decide (p = p')) as [<- |].
    - rewrite transfer_line_skipped; [done |]. apply Hlines. left.
    - by apply transfer_line_other_stock. }
  destruct (TMSSystem.transfer_line _ _ _ _ _) as [s' [e |]]; cbn [fst] in *; [done |].
  rewrite IH, Hline; [done |].
  intros q Hq. rewrite Hline. apply Hlines. by right.
Qed.

Lemma unique_line {A} (lines : list (string * A)) p q q' :
  NoDup lines.*1 → (p, q) ∈ lines → (p, q') ∈ lines → q = q'.
Proof.
  induction lines as [| [p0 q0] lines IH]; cbn; [by intros _ ?%elem_of_nil |].
  intros [Hfresh Hrest]%NoDup_cons [Hq | Hq]%elem_of_cons [Hq' | Hq']%elem_of_cons.
  - congruence.
  - simplify_eq. destruct Hfresh. by apply (list_elem_of_fmap_2 fst _ (p0, q')).
  - simplify_eq. destruct Hfresh. by apply (list_elem_of_fmap_2 fst _ (p0, q)).
  - by apply IH.
Qed.

Lemma same_registry_refl s : same_registry s s.
Proof. by repeat split. Qed.

Lemma same_registry_trans s1 s2 s3 :
  same_registry s1 s2 → same_registry s2 s3 → same_registry s1 s3.
Proof.
  intros (? & ? & H12) (? & ? & H23). repeat split; try congruence.
  - intros ?. by apply H12, H23.
  - intros ?. by apply H23, H12.
Qed.

Lemma same_registry_set_warehouse s k w' :
  is_Some (Dict.get k (TMSSystem.warehouses s)) →
  same_registry s (TMSSystem.set_warehouse s k w').
Proof.
  intros Hk. repeat split; cbn; rewrite dict_get_set; case_decide; subst; done.
Qed.

Lemma transfer_line_registry s src tgt p q :
  same_registry s (TMSSystem.transfer_line s src tgt p q).1.
Proof.
  unfold TMSSystem.transfer_line.
  destruct (Dict.get src _) as [source |] eqn:Hsrc; [| apply same_registry_refl].
  destruct (TMSSystem.holds _ _ _); [| apply same_registry_refl].
  destruct (TMSSystem.products s !! p) as [product |]; [| apply same_registry_refl].
  pose proof (same_registry_set_warehouse s src
    (Warehouse.remove_product source p q (volume product)).2) as H1.
  rewrite Hsrc in H1. specialize (H1 (mk_is_Some _ _ eq_refl)).
  destruct (Dict.get tgt _) as [target |] eqn:Htgt; cbn [fst]; [| done].
  eapply same_registry_trans; [done |].
  apply (same_registry_set_warehouse _ tgt). by rewrite Htgt.
Qed.

Lemma transfer_line_no_fault s src tgt p q :
  is_Some (Dict.get src (TMSSystem.warehouses s)) →
  is_Some (Dict.get tgt (TMSSystem.warehouses s)) →
  is_Some (TMSSystem.products s !! p) →
  (TMSSystem.transfer_line s src tgt p q).2 = None.
Proof.
  intros [source Hsrc] Htgt [product Hp]. unfold TMSSystem.transfer_line.
  rewrite Hsrc. destruct (TMSSystem.holds _ _ _); [| done]. rewrite Hp.
  destruct (same_registry_set_warehouse s src
    (Warehouse.remove_product source p q (volume product)).2) as (_ & _ & H1).
  { by rewrite Hsrc. }
  destruct (proj2 (H1 tgt) Htgt) as [target Ht]. by rewrite Ht.
Qed.

Lemma transfer_lines_no_fault src tgt lines : ∀ s,
  is_Some (Dict.get src (TMSSystem.warehouses s)) →
  is_Some (Dict.get tgt (TMSSystem.warehouses s)) →
  (∀ p q, (p, q) ∈ lines → is_Some (TMSSystem.products s !! p)) →
  (TMSSystem.transfer_lines s src tgt lines).2 = None
  ∧ same_registry s (TMSSystem.transfer_lines s src tgt lines).1.
Proof.
  induction lines as [| [p q] lines IH]; intros s Hsrc Htgt Hcat; cbn.
  { split; [done | apply same_registry_refl]. }
  pose proof (transfer_line_no_fault s src tgt p q Hsrc Htgt) as Hnone.
  pose proof (transfer_line_registry s src tgt p q) as Hreg.
  destruct (TMSSystem.transfer_line _ _ _ _ _) as [s' [e |]]; cbn [fst snd] in *.
  { exfalso. assert (Some e = None) as [=]. apply Hnone, (Hcat p q). left. }
  pose proof Hreg as (Hprod & Heq & Hwh).
  destruct (IH s') as [Hn Hr].
  - by apply Hwh.
  - by apply Hwh.
  - intros p' q' Hin. rewrite Hprod. apply (Hcat p' q'). by right.
  - split; [done |]. by eapply same_registry_trans.
Qed.

Lemma transfer_effect_stock s task src tgt lines p :
  Task.source_warehouse_id (Task.meta task) = Some src →
  Task.target_warehouse_id (Task.meta task) = Some tgt →
  Task.products (Task.meta task) = Some lines →
  (∀ q, (p, q) ∈ lines → default 0 (stock_of s src p) < q) →
  ∀ wid,
    stock_of (TMSSystem.execute_internal_transfer_task s task).1 wid p
    = stock_of s wid p.
Proof.
  intros Hsrc Htgt Hlines Hshort wid.
  unfold TMSSystem.execute_internal_transfer_task. rewrite Hsrc, Htgt, Hlines.
  destruct (Dict.get src _); [| done]. destruct (Dict.get tgt _); [| done].
  by apply transfer_lines_keep_stock.
Qed.

Lemma transfer_effect_no_fault s task src tgt lines :
  Task.source_warehouse_id (Task.meta task) = Some src →
  Task.target_warehouse_id (Task.meta task) = Some tgt →
  Task.products (Task.meta task) = Some lines →
  is_Some (Dict.get src (TMSSystem.warehouses s)) →
  is_Some (Dict.get tgt (TMSSystem.warehouses s)) →
  (∀ p q, (p, q) ∈ lines → is_Some (TMSSystem.products s !! p)) →
  (TMSSystem.execute_internal_transfer_task s task).2 = None
  ∧ same_registry s (TMSSystem.execute_internal_transfer_task s task).1.
Proof.
  intros Hsrc Htgt Hlines Hs Ht Hcat.
  unfold TMSSystem.execute_internal_transfer_task. rewrite Hsrc, Htgt, Hlines.
  destruct Hs as [? Hs], Ht as [? Ht]. rewrite Hs, Ht.
  apply transfer_lines_no_fault; [by rewrite Hs | by rewrite Ht | done].
Qed.

Lemma release_and_save_stock s task db_ok wid p :
  stock_of (TMSSystem.release_and_save s task db_ok).1 wid p = stock_of s wid p.
Proof. unfold TMSSystem.release_and_save. by repeat case_match; simplify_eq. Qed.

Lemma release_and_save_no_fault s task :
  (∀ id, Task.assigned_equipment task = Some id →
         is_Some (Dict.get id (TMSSystem.equipment s))) →
  (TMSSystem.release_and_save s task true).2 = None.
Proof.
  intros Hreg. unfold TMSSystem.release_and_save.
  destruct (Task.assigned_equipment task) as [id |]; [| done].
  case_decide; [done |]. by destruct (Hreg id eq_refl) as [e ->].
Qed.

(** C2, as amended. When an internal-transfer task asks, for some product,
    for more than the source warehouse holds, [execute_task] leaves the
    target warehouse's quantity of that product unchanged; the line is
    skipped without a fault, and when nothing else faults (both warehouses
    are registered, every product of the task is registered, the assigned
    equipment, if any, is registered, and the task is saved) the call answers
    success and the task ends Completed with its failure reason as it was,
    not Failed. *)
Theorem short_line_is_skipped (s : TMSSystem.t) (task_id : string) (task : Task.t)
    (src tgt : string) (lines : list (string * Z)) (p : string) (q : Z)
    (t_start t_end : Z) (db_ok : bool) :
  Dict.get task_id (TMSSystem.tasks s) = Some task →
  Task.task_type task = INTERNAL_TRANSFER →
  Task.source_warehouse_id (Task.meta task) = Some src →
  Task.target_warehouse_id (Task.meta task) = Some tgt →
  Task.products (Task.meta task) = Some lines →
  NoDup lines.*1 →
  (p, q) ∈ lines →
  default 0 (stock_of s src p) < q →
  let r := TMSSystem.execute_task s task_id t_start t_end db_ok in
  stock_of r.2 tgt p = stock_of s tgt p
  ∧ (is_Some (Dict.get src (TMSSystem.warehouses s)) →
     is_Some (Dict.get tgt (TMSSystem.warehouses s)) →
     (∀ p' q', (p', q') ∈ lines → is_Some (TMSSystem.products s !! p')) →
     (∀ id, Task.assigned_equipment task = Some id →
            is_Some (Dict.get id (TMSSystem.equipment s))) →
     db_ok = true →
     r.1 = true
     ∧ task_status r.2 task_id = Some COMPLETED
     ∧ task_failure r.2 task_id = Task.failure_reason (Task.meta task)).
Proof.
  intros Hget Htype Hsrc Htgt Hlines Hnodup Hin Hshort. cbv zeta.
  unfold TMSSystem.execute_task. rewrite Hget.
  set (started := Task.start_execution t_start task).
  set (s1 := TMSSystem.set_task s task_id started).
  assert (TMSSystem.run_effect s1 started
          = TMSSystem.execute_internal_transfer_task s1 started) as ->.
  { unfold TMSSystem.run_effect. cbn [started Task.start_execution Task.task_type].
    by rewrite Htype. }
  assert (∀ q', (p, q') ∈ lines → default 0 (stock_of s1 src p) < q') as Hall.
  { intros q' Hq'. by rewrite <- (unique_line lines p q q'). }
  pose proof (transfer_effect_stock s1 started src tgt lines p Hsrc Htgt Hlines Hall)
    as Hstock.
  pose proof (transfer_effect_no_fault s1 started src tgt lines Hsrc Htgt Hlines)
    as Hfault.
  destruct (TMSSystem.execute_internal_transfer_task s1 started)
    as [s2 [e |]] eqn:Heff; cbn [fst snd] in *.
  - split; [exact (Hstock tgt) |].
    intros Hs Ht Hcat _ _. by destruct (Hfault Hs Ht Hcat) as [[=] _].
  - set (completed := Task.complete_task t_end started).
    set (s3 := TMSSystem.set_task s2 task_id completed).
    pose proof (release_and_save_stock s3 completed db_ok tgt p) as Hrel.
    pose proof (release_and_save_tasks s3 completed db_ok) as Htasks.
    pose proof (release_and_save_no_fault s3 completed) as Hsave.
    destruct (TMSSystem.release_and_save s3 completed db_ok)
      as [s4 [e |]] eqn:Hrs; cbn [fst snd] in *.
    + split; [exact (eq_trans Hrel (Hstock tgt)) |].
      intros Hs Ht Hcat Heq ->. destruct (Hfault Hs Ht Hcat) as [_ (_ & Heqs & _)].
      rewrite Hrs in Hsave. cbn in Hsave. discriminate Hsave.
      intros id Hid. cbn. rewrite Heqs. by apply Heq.
    + split; [exact (eq_trans Hrel (Hstock tgt)) |].
      intros _ _ _ _ _. split; [done |].
      unfold task_status, task_failure. rewrite Htasks. cbn.
      by rewrite dict_get_set_eq.
Qed.

(** Scenario E: [TW001] holds 10 units of steel and the task asks for 15. *)
Lemma short_line_is_skipped_witness :
  let s := yard #2000 (transfer_task "TW001" "PW001" [("P001", 15)]) in
  let r := TMSSystem.execute_task s "T1" 1 2 true in
  stock_of r.2 "PW001" "P001" = stock_of s "PW001" "P001"
  ∧ r.1 = true
  ∧ task_status r.2 "T1" = Some COMPLETED
  ∧ task_failure r.2 "T1" = None.
Proof.
  cbv zeta.
  destruct (short_line_is_skipped
              (yard #2000 (transfer_task "TW001" "PW001" [("P001", 15)]))
              "T1" (transfer_task "TW001" "PW001" [("P001", 15)])
              "TW001" "PW001" [("P001", 15)] "P001" 15 1 2 true)
    as [Hstock Hdone]; try reflexivity.
  - cbn. apply NoDup_singleton.
  - left.
  - split; [exact Hstock |]. apply Hdone.
    + eexists. reflexivity.
    + eexists. reflexivity.
    + intros p' q' [= -> ->]%list_elem_of_singleton. eexists. reflexivity.
    + intros id [=].
    + reflexivity.
Defined.

(** C2 as stated fails: in scenario E the task ends Completed and no failure
    reason is recorded. *)
Lemma short_line_counterexample :
  let s := yard #2000 (transfer_task "TW001" "PW001" [("P001", 15)]) in
  let r := TMSSystem.execute_task s "T1" 1 2 true in
  stock_of s "TW001" "P001" = Some 10
  ∧ r.1 = true
  ∧ task_status r.2 "T1" = Some COMPLETED
  ∧ task_status r.2 "T1" ≠ Some FAILED
  ∧ task_failure r.2 "T1" = None.
Proof. by vm_compute. Qed.

(** ** C7: one pass of the scheduler *)

Lemma assigned_to_set_task s t task t' :
  assigned_to (TMSSystem.set_task s t task) t'
  = if decide (t' = t) then Task.assigned_equipment task else assigned_to s t'.
Proof. unfold assigned_to; cbn. rewrite dict_get_set. by case_decide. Qed.

Lemma equipment_status_set_equipment s e eq e' :
  equipment_status (TMSSystem.set_equipment s e eq) e'
  = if decide (e' = e) then Some (Equipment.status eq) else equipment_status s e'.
Proof. unfold equipment_status; cbn. rewrite dict_get_set. by case_decide. Qed.

Lemma assign_equipment_turn c t e :
  let r := TMSSystem.assign_equipment_to_task c t e in
  turn c r.2 (if r.1 then Some (t, e) else None).
Proof.
  cbv zeta. unfold TMSSystem.assign_equipment_to_task.
  destruct (Dict.get t (TMSSystem.tasks c)) as [task |] eqn:Ht; [| by constructor].
  destruct (Dict.get e (TMSSystem.equipment c)) as [eq |] eqn:He; [| by constructor].
  destruct (negb _); [by constructor |].
  case_decide as Hidle; [by constructor |]. cbn [fst snd].
  constructor.
  - unfold equipment_status. by rewrite He; cbn; rewrite Hidle.
  - intros t'. change (assigned_to (TMSSystem.set_equipment ?s _ _) t')
      with (assigned_to s t').
    by rewrite assigned_to_set_task.
  - intros e'. rewrite equipment_status_set_equipment. by case_decide.
Qed.

Lemma schedule_task_turn c t schedule :
  let r := TMSSystem.schedule_task c t schedule in
  ∃ claim, turn c r.1 claim
    ∧ ∀ schedule', r.2 = inr schedule' →
        schedule' = match claim with
                    | Some _ => schedule ++ [t]
                    | None => schedule
                    end
        ∧ ∀ t' e, claim = Some (t', e) → t' = t.
Proof.
  cbv zeta. unfold TMSSystem.schedule_task.
  destruct (Dict.get t (TMSSystem.tasks c)) as [task |].
  2: { exists None. split; [by constructor | by intros ? [=]]. }
  destruct (TMSSystem.distances _ _ _) as [err | [| first others]].
  1, 2: exists None; split; [by constructor | intros ? [=]; by subst].
  pose proof (assign_equipment_turn c t (min_by first others)) as Hturn.
  destruct (TMSSystem.assign_equipment_to_task _ _ _) as [ok c'].
  cbn [fst snd] in *. eexists. split; [exact Hturn |].
  intros ? [= <-]. destruct ok; split; try done. by intros ? ? [= <- _].
Qed.

Lemma pass_inv_start s : pass_inv s s [].
Proof.
  split; [done | by left | by intros ? ?%elem_of_nil |].
  intros t1 t2 e _ H1 _. split; [left; apply not_elem_of_nil | by left].
Qed.

Lemma claimed_mono s c c' t e e' :
  turn c c' (Some (t, e)) → claimed s c e' → claimed s c' e'.
Proof.
  intros Hturn [Hs Hc]. inversion_clear Hturn as [| ? ? _ _ Heq].
  split; [done |]. rewrite Heq. by case_decide.
Qed.

Lemma pass_inv_claim s c c' schedule t e :
  turn c c' (Some (t, e)) → pass_inv s c schedule → pass_inv s c' (schedule ++ [t]).
Proof.
  intros Hturn [Hidle Horigin Hsched Hexcl].
  pose proof (claimed_mono s c c' t e) as Hmono. specialize (Hmono e).
  inversion Hturn as [| ? ? Hfree Htask Heq]; subst.
  assert (claimed s c' e) as Hnew.
  { split; [by apply Hidle |]. rewrite Heq. by case_decide. }
  assert (∀ e', claimed s c e' → claimed s c' e') as Hkeep.
  { intros e'. by apply claimed_mono with t e. }
  assert (∀ e', claimed s c e' → e' ≠ e) as Hother.
  { intros e' [_ Hbusy] ->. congruence. }
  split.
  - intros e'. rewrite Heq. case_decide; [done | apply Hidle].
  - intros t' e'. rewrite Htask. case_decide.
    + intros [= <-]. by right.
    + intros [? | ?]%Horigin; [by left | right; by apply Hkeep].
  - intros t' Ht'. destruct (decide (t' = t)) as [-> |].
    + exists e. rewrite Htask. by case_decide.
    + apply elem_of_app in Ht' as [Ht' | ->%list_elem_of_singleton]; [| done].
      destruct (Hsched t' Ht') as (e' & He' & Hcl). exists e'.
      rewrite Htask. case_decide; [done |]. split; [done | by apply Hkeep].
  - assert (∀ t', t' ≠ t → assigned_to c t' = Some e →
              (t' ∉ schedule ++ [t]) ∧ assigned_to s t' = Some e) as Hclash.
    { intros t' Hne Ht'. split.
      - intros [Hin | ->%list_elem_of_singleton]%elem_of_app; [| done].
        destruct (Hsched t' Hin) as (e' & He' & Hcl).
        apply (Hother e' Hcl). congruence.
      - destruct (Horigin t' e Ht') as [| Hcl]; [done |]. by destruct (Hother e Hcl). }
    intros t1 t2 e'. rewrite !Htask. intros Hne.
    destruct (decide (t1 = t)) as [-> |], (decide (t2 = t)) as [-> |]; try done.
    + intros [= <-] H2. destruct (Hclash t2) as [? ?]; [done | done |].
      split; by right.
    + intros H1 [= <-]. destruct (Hclash t1) as [? ?]; [done | done |].
      split; by left.
    + intros H1 H2. destruct (Hexcl t1 t2 e' Hne H1 H2) as [Hout ?].
      split; [| done].
      destruct Hout as [Hout | Hout]; [left | right];
        intros [? | ->%list_elem_of_singleton]%elem_of_app; done.
Qed.

Lemma schedule_loop_inv s ids : ∀ c schedule,
  pass_inv s c schedule →
  ∀ c' schedule', TMSSystem.schedule_loop c ids schedule = (c', inr schedule') →
  pass_inv s c' schedule'.
Proof.
  induction ids as [| t ids IH]; intros c schedule Hinv c' schedule'; cbn.
  { by intros [= <- <-]. }
  destruct (schedule_task_turn c t schedule) as (claim & Hturn & Hsched).
  destruct (TMSSystem.schedule_task c t schedule) as [c1 [err | sch1]];
    cbn [fst snd] in *; [done |].
  destruct (Hsched sch1 eq_refl) as [-> Hwho].
  apply IH. destruct claim as [[t' e] |].
  - rewrite (Hwho t' e eq_refl) in Hturn. by eapply pass_inv_claim.
  - by inversion Hturn; subst.
Qed.




(** ** The path planner *)

(** *** The loops of heapq never use up their turns *)

Lemma siftdown_loop_turns n : ∀ m heap newitem startpos pos,
  (pos < n)%nat → (pos < m)%nat →
  heapq.siftdown_loop n heap newitem startpos pos
  = heapq.siftdown_loop m heap newitem startpos pos.
Proof.
  induction n as [| n IH]; intros [| m] heap newitem startpos pos Hn Hm; try lia.
  cbn [heapq.siftdown_loop]. case_decide as Hpos; [| done].
  destruct (heap !! _) as [parent |]; [| done].
  destruct (heapq.lt newitem parent) as [| [|]]; cbn [mbind exn_bind]; [done | | done].
  assert ((pos - 1) / 2 ≤ pos - 1)%nat
    by (apply (Nat.Div0.div_le_upper_bound (pos - 1) 2 (pos - 1)); lia).
  apply IH; lia.
Qed.

Lemma siftup_loop_turns n : ∀ m heap endpos pos,
  (endpos - pos ≤ n)%nat → (endpos - pos ≤ m)%nat →
  heapq.siftup_loop n heap endpos pos = heapq.siftup_loop m heap endpos pos.
Proof.
  induction n as [| n IH]; intros [| m] heap endpos pos Hn Hm; cbn;
    try (case_decide; [lia | done]); [done |].
  case_decide as Hchild; [| done].
  assert (∀ pick : nat, (pos < pick)%nat →
            match heap !! pick with
            | Some child => heapq.siftup_loop n (<[pos := child]> heap) endpos pick
            | None => inl IndexError
            end
            = match heap !! pick with
              | Some child => heapq.siftup_loop m (<[pos := child]> heap) endpos pick
              | None => inl IndexError
              end) as Hnext.
  { intros pick Hpick. destruct (heap !! pick); [| done]. apply IH; lia. }
  case_decide.
  - destruct (heap !! _) as [l |]; [| done]. destruct (heap !! _) as [r |]; [| done].
    destruct (heapq.lt l r) as [| [|]]; cbn; [done | |]; apply Hnext; lia.
  - cbn. apply Hnext. lia.
Qed.

(** *** heapq only moves entries around *)

Section HeapEntries.
Variable P : heapq.item → Prop.

Lemma siftdown_loop_entries turns : ∀ heap newitem startpos pos heap',
  Forall P heap → P newitem →
  heapq.siftdown_loop turns heap newitem startpos pos = inr heap' →
  Forall P heap'.
Proof.
  induction turns as [| turns IH]; intros heap newitem startpos pos heap' Hheap Hnew; cbn.
  { intros [= <-]. by apply Forall_insert. }
  case_decide; [| intros [= <-]; by apply Forall_insert].
  destruct (heap !! _) as [parent |] eqn:Hparent; [| done].
  destruct (heapq.lt newitem parent) as [| [|]]; cbn; [done | |].
  - apply IH; [| done]. apply Forall_insert; [done |].
    by eapply Forall_lookup_1.
  - intros [= <-]. by apply Forall_insert.
Qed.

Lemma siftdown_entries heap startpos pos heap' :
  Forall P heap → heapq.siftdown heap startpos pos = inr heap' → Forall P heap'.
Proof.
  intros Hheap. unfold heapq.siftdown.
  destruct (heap !! pos) as [newitem |] eqn:Hpos; [| done].
  apply siftdown_loop_entries; [done |]. by eapply Forall_lookup_1.
Qed.

Lemma siftup_loop_entries turns : ∀ heap endpos pos heap' pos',
  Forall P heap →
  heapq.siftup_loop turns heap endpos pos = inr (heap', pos') →
  Forall P heap'.
Proof.
  induction turns as [| turns IH]; intros heap endpos pos heap' pos' Hheap; cbn.
  { by intros [= <- _]. }
  case_decide; [| by intros [= <- _]].
  destruct (if decide _ then _ else _) as [| pick]; cbn; [done |].
  destruct (heap !! pick) as [child |] eqn:Hchild; [| done].
  apply IH. apply Forall_insert; [done |]. by eapply Forall_lookup_1.
Qed.

Lemma siftup_entries heap pos heap' :
  Forall P heap → heapq.siftup heap pos = inr heap' → Forall P heap'.
Proof.
  intros Hheap. unfold heapq.siftup.
  destruct (heap !! pos) as [newitem |] eqn:Hpos; [| done].
  destruct (heapq.siftup_loop _ _ _ _) as [| [heap1 pos1]] eqn:Hloop; cbn; [done |].
  apply siftdown_entries. apply Forall_insert.
  - by eapply siftup_loop_entries.
  - by eapply Forall_lookup_1.
Qed.

Lemma heappush_entries heap x heap' :
  Forall P heap → P x → heapq.heappush heap x = inr heap' → Forall P heap'.
Proof.
  intros Hheap Hx. apply siftdown_entries, Forall_app. by split; [| constructor].
Qed.

Lemma removelast_entries (heap : list heapq.item) :
  Forall P heap → Forall P (removelast heap).
Proof.
  induction 1 as [| x [| y l] Hx Hl IH]; cbn in *; [done | done |].
  by constructor.
Qed.

Lemma heappop_entries heap x heap' :
  Forall P heap → heapq.heappop heap = inr (x, heap') → P x ∧ Forall P heap'.
Proof.
  intros Hheap. unfold heapq.heappop.
  destruct (last heap) as [lastelt |] eqn:Hlast; [| done].
  assert (P lastelt) as Hl.
  { apply last_Some_elem_of in Hlast. by eapply Forall_forall in Hheap. }
  pose proof (removelast_entries heap Hheap) as Hrest.
  destruct (removelast heap) as [| returnitem rest]; [by intros [= <- <-] |].
  inversion_clear Hrest as [| ? ? Hret Hrest'].
  destruct (heapq.siftup _ _) as [| heap1] eqn:Hup; cbn; [done |].
  intros [= <- <-]. split; [done |].
  eapply siftup_entries; [| done]. by constructor.
Qed.
End HeapEntries.

Lemma get_neighbors_spec pl current neighbor :
  neighbor ∈ PathPlanner.get_neighbors pl current →
  PathPlanner.free_cell pl (PathPlanner.key neighbor)
  ∧ Z.abs (px current - px neighbor) + Z.abs (py current - py neighbor) = 1.
Proof.
  unfold PathPlanner.get_neighbors. rewrite list_elem_of_omap.
  intros (d & Hd & Hcell). case_decide as Hfree; [| done].
  injection Hcell as <-. split; [done |]. cbn.
  unfold PathPlanner.directions in Hd.
  repeat (apply elem_of_cons in Hd as [-> | Hd]); cbn; [lia .. |].
  by apply elem_of_nil in Hd.
Qed.

Section SearchInvariant.
Variables (pl : PathPlanner.t) (start goal : Position).

Lemma reached_insert cf k prev p :
  reached start cf p → reached start (<[k := prev]> cf) p.
Proof.
  intros [-> | Hp]; [by left | right].
  rewrite lookup_insert. by case_decide.
Qed.

Lemma relax_ok current st neighbor st' :
  neighbor ∈ PathPlanner.get_neighbors pl current →
  reached start (PathPlanner.came_from st) current →
  search_ok pl start st →
  PathPlanner.relax goal current st neighbor = inr st' →
  search_ok pl start st'
  ∧ reached start (PathPlanner.came_from st') current.
Proof.
  intros [Hfree Hadj]%get_neighbors_spec Hcur [Hcf Hheap].
  unfold PathPlanner.relax.
  destruct (PathPlanner.g_score st !! _) as [g |]; [| done].
  destruct (match PathPlanner.g_score st !! _ with Some _ => _ | None => _ end);
    [| by intros [= <-]].
  destruct (heapq.heappush _ _) as [| heap] eqn:Hpush; cbn; [done |].
  intros [= <-]. unfold search_ok, came_from_ok.
  cbn [PathPlanner.came_from PathPlanner.open_set]. split; [split |].
  - intros k prev. rewrite lookup_insert. case_decide as Hk.
    + intros [= <-]. subst k.
      split; [exact Hfree | split; [exact Hadj | by apply reached_insert]].
    + intros (? & ? & ?)%Hcf.
      split; [done | split; [done | by apply reached_insert]].
  - eapply heappush_entries; [| | exact Hpush].
    + eapply Forall_impl; [exact Hheap |]. intros it. apply reached_insert.
    + right. cbn. by rewrite lookup_insert_eq.
  - by apply reached_insert.
Qed.

Lemma relax_all_ok current neighbors : ∀ st st',
  (∀ n, n ∈ neighbors → n ∈ PathPlanner.get_neighbors pl current) →
  reached start (PathPlanner.came_from st) current →
  search_ok pl start st →
  PathPlanner.relax_all goal current st neighbors = inr st' →
  search_ok pl start st'.
Proof.
  induction neighbors as [| n ns IH]; intros st st' Hsub Hcur Hok; cbn.
  { by intros [= <-]. }
  destruct (PathPlanner.relax goal current st n) as [| st1] eqn:Hrelax; cbn; [done |].
  destruct (relax_ok current st n st1) as [Hok1 Hcur1]; try done.
  { apply Hsub. left. }
  apply IH; [| done | done]. intros n' ?. apply Hsub. by right.
Qed.

Lemma walk_back_chain cf turns : ∀ cur acc path,
  came_from_ok pl start cf →
  reached start cf cur →
  PathPlanner.walk_back turns cf cur acc = Some path →
  ∃ chain, path = acc ++ chain ∧ back_chain start cf cur chain.
Proof.
  induction turns as [| turns IH]; intros cur acc path Hcf Hcur; cbn; [done |].
  destruct (cf !! PathPlanner.key cur) as [prev |] eqn:Hprev.
  - intros Hwalk. destruct (Hcf _ _ Hprev) as (_ & _ & Hreach).
    destruct (IH prev (acc ++ [cur]) path Hcf Hreach Hwalk) as (chain & -> & Hchain).
    exists (cur :: chain). split; [by rewrite <- app_assoc |].
    by apply back_step with prev.
  - intros [= <-]. exists []. split; [by rewrite app_nil_r |].
    destruct Hcur as [-> | [? Hsome]]; [constructor | congruence].
Qed.

(** The chain followed by [start], read from the goal back to the start. *)
Lemma back_chain_steps cf cur chain :
  came_from_ok pl start cf →
  back_chain start cf cur chain →
  head (chain ++ [start]) = Some cur
  ∧ Forall (λ p, PathPlanner.free_cell pl (PathPlanner.key p)) chain
  ∧ ∀ i a b, (chain ++ [start]) !! i = Some a →
             (chain ++ [start]) !! S i = Some b → distance_to b a = 1.
Proof.
  intros Hcf. induction 1 as [| cur prev chain Hprev Hchain (Hhead & Hfree & Hstep)].
  - split; [done |]. split; [constructor |]. by intros [| i] a b.
  - destruct (Hcf _ _ Hprev) as (Hcell & Hadj & _).
    split; [done |]. split; [by constructor |].
    intros [| i] a b Ha Hb.
    + injection Ha as <-.
      change ((chain ++ [start]) !! 0%nat = Some b) in Hb.
      rewrite <- head_lookup, Hhead in Hb. injection Hb as <-.
      unfold distance_to. exact Hadj.
    + by apply (Hstep i).
Qed.

Lemma reconstructed_path_valid cf chain :
  PathPlanner.free_cell pl (PathPlanner.key start) →
  came_from_ok pl start cf →
  back_chain start cf goal chain →
  valid_path pl start goal (reverse (chain ++ [start])).
Proof.
  intros Hstart Hcf Hchain.
  destruct (back_chain_steps cf goal chain Hcf Hchain) as (Hhead & Hfree & Hstep).
  split; [| split; [| split]].
  - by rewrite head_reverse, last_snoc.
  - by rewrite last_reverse.
  - apply Forall_reverse, Forall_app. split; [done | by constructor].
  - intros i a b Ha Hb.
    pose proof (lookup_lt_Some _ _ _ Hb) as Hlen. rewrite length_reverse in Hlen.
    rewrite reverse_lookup in Ha by lia. rewrite reverse_lookup in Hb by lia.
    apply (Hstep (length (chain ++ [start]) - S (S i))%nat); [done |].
    rewrite <- Ha. f_equal. lia.
Qed.
End SearchInvariant.

Lemma search_loop_valid pl start goal turns : ∀ st path,
  PathPlanner.free_cell pl (PathPlanner.key start) →
  search_ok pl start st →
  PathPlanner.search_loop turns pl start goal st = Some (inr path) →
  path ≠ [] →
  valid_path pl start goal path.
Proof.
  induction turns as [| turns IH]; intros st path Hstart [Hcf Hheap];
    cbn [PathPlanner.search_loop]; [done |].
  destruct (PathPlanner.open_set st) as [| it rest] eqn:Hopen.
  { by intros [= <-]. }
  destruct (heapq.heappop (it :: rest)) as [err | [[current_f current] heap']] eqn:Hpop;
    [done |].
  destruct (heappop_entries _ _ _ _ Hheap Hpop) as [Hcur Hheap'].
  cbn [snd] in Hcur. case_decide as Hgoal.
  - destruct (PathPlanner.walk_back _ _ _ _) as [walked |] eqn:Hwalk; cbn; [| done].
    intros [= <-] _.
    destruct (walk_back_chain pl start _ _ _ _ _ Hcf Hcur Hwalk) as (chain & -> & Hchain).
    assert (current = goal) as ->.
    { destruct current, goal, Hgoal; cbn in *; congruence. }
    by apply reconstructed_path_valid with (PathPlanner.came_from st).
  - destruct (PathPlanner.relax_all _ _ _ _) as [err | st'] eqn:Hrelax; [done |].
    apply IH; [done |].
    eapply relax_all_ok; [| | | exact Hrelax]; [done | done | by split].
Qed.

(** ** C10: a returned path is a grid path *)

(** C10. For every in-bounds start and goal, whenever [a_star_path] returns a
    non-empty sequence, its first element is the start, its last element is
    the goal, every position of it is in bounds and not an obstacle, and
    consecutive positions are at Manhattan distance 1. *)
Theorem a_star_path_valid (turns : nat) (pl : PathPlanner.t) (start goal : Position)
    (path : list Position) :
  in_bounds pl start →
  in_bounds pl goal →
  PathPlanner.a_star_path turns pl start goal = Some (inr path) →
  path ≠ [] →
  valid_path pl start goal path.
Proof.
  intros [Hx Hy] _. unfold PathPlanner.a_star_path.
  case_decide as Hobstacle; [by intros [= <-] |].
  apply search_loop_valid.
  - split; [done | split; [done |]]. intros Hin. apply Hobstacle. by left.
  - split; cbn.
    + intros k prev. by rewrite lookup_empty.
    + constructor; [by left | constructor].
Qed.

(** A query that the planner answers: an obstacle at (1, 1) of a 3 × 3
    grid, from (0, 0) to the cell on its right. *)
Lemma a_star_path_valid_witness :
  let pl := PathPlanner.add_obstacle (grid 3 3) (mkPosition 1 1) in
  PathPlanner.a_star_path 9 pl origin (mkPosition 1 0)
  = Some (inr [origin; mkPosition 1 0])
  ∧ valid_path pl origin (mkPosition 1 0) [origin; mkPosition 1 0].
Proof.
  cbv zeta. split; [by vm_compute |].
  apply (a_star_path_valid 9); [by vm_compute | by vm_compute | by vm_compute | done].
Defined.

(** ** C5 and C6: ties in the open set *)

(** C5, evaluated at a failing input. Scenario A, the 5 × 5 grid without
    obstacles from (0, 0) to (4, 4): the two neighbours of the start both have
    f-score 8, pushing the second one compares the two positions, and the
    call raises instead of returning a path of 9 positions. *)
Theorem a_star_scenario_A_raises (turns : nat) :
  PathPlanner.get_neighbors (grid 5 5) origin = [mkPosition 0 1; mkPosition 1 0]
  ∧ PathPlanner.heuristic (mkPosition 0 1) (mkPosition 4 4) = 7
  ∧ PathPlanner.heuristic (mkPosition 1 0) (mkPosition 4 4) = 7
  ∧ PathPlanner.a_star_path (S turns) (grid 5 5) origin (mkPosition 4 4)
    = Some (inl TypeError).
Proof. by vm_compute. Qed.

(** C6, evaluated at a failing input. An entry of the open set is the pair
    of an f-score and a position, with no sequence number; on equal f-scores
    [<] goes on to the positions and raises when they differ. On the 3 × 3
    grid without obstacles, from (0, 0) to (0, 2), the entries (4, (1, 0)) and
    (4, (1, 1)) meet when the goal is popped, and the query raises. *)
Theorem open_set_tie_raises (turns : nat) (f : Z) (p q : Position) :
  heapq.lt (f, p) (f, q) = (if decide (p = q) then inr false else inl TypeError)
  ∧ heapq.heappush [(2, mkPosition 0 2); (4, mkPosition 1 0)] (4, mkPosition 1 1)
    = inr [(2, mkPosition 0 2); (4, mkPosition 1 0); (4, mkPosition 1 1)]
  ∧ heapq.heappop [(2, mkPosition 0 2); (4, mkPosition 1 0); (4, mkPosition 1 1)]
    = inl TypeError
  ∧ PathPlanner.a_star_path (3 + turns) (grid 3 3) origin (mkPosition 0 2)
    = Some (inl TypeError).
Proof.
  split; [| by vm_compute].
  unfold heapq.lt; cbn. case_decide; [| done]. by repeat case_decide.
Qed.

(** * Further properties *)

(** ** Cranes, trucks and frames *)




(** X3. A truck carries at most one frame: attaching to a free truck
    succeeds, a second attach is refused, detaching gives the free truck
    back; attaching to a truck that has a frame, and detaching from one that
    has none, are refused and change nothing. *)
Theorem frame_truck_attach_detach (f : FrameTruck.t) (frame_id other_id : string) :
  match FrameTruck.attached_frame_id f with
  | None =>
      let r := FrameTruck.attach_frame f frame_id in
      r.1 = true
      ∧ FrameTruck.attached_frame_id r.2 = Some frame_id
      ∧ FrameTruck.attach_frame r.2 other_id = (false, r.2)
      ∧ FrameTruck.detach_frame r.2 = (true, f)
      ∧ FrameTruck.detach_frame f = (false, f)
  | Some _ =>
      FrameTruck.attach_frame f frame_id = (false, f)
      ∧ (FrameTruck.detach_frame f).1 = true
      ∧ FrameTruck.attached_frame_id (FrameTruck.detach_frame f).2 = None
  end.
Proof.
  destruct f as [cap [attached |] load]; cbn; by repeat split.
Qed.



(** ** Warehouses *)



(** X6. For a warehouse whose volume lies between 0 and its capacity, the
    utilization rate lies between 0 and 100 and the available capacity is not
    negative; the rate is 0, with no division, when the capacity is 0. *)
Theorem utilization_rate_bounds (w : Warehouse.t) :
  volume_in_bounds w →
  (0 <= Warehouse.get_utilization_rate w)%Q
  ∧ (Warehouse.get_utilization_rate w <= #100)%Q
  ∧ (0 <= Warehouse.get_available_capacity w)%Q
  ∧ ((Warehouse.capacity w == 0)%Q → Warehouse.get_utilization_rate w = 0%Q).
Proof.
  intros [Hlo Hhi]. unfold Warehouse.get_utilization_rate, Warehouse.get_available_capacity.
  destruct (Qlt_le_dec 0 (Warehouse.capacity w)) as [Hcap | Hcap].
  - assert (0 <= Warehouse.current_volume w / Warehouse.capacity w)%Q as H0
      by (apply Qle_shift_div_l; [done | lra]).
    assert (Warehouse.current_volume w / Warehouse.capacity w <= 1)%Q as H1
      by (apply Qle_shift_div_r; [done | lra]).
    unfold inject_Z.
    repeat split; [lra | lra | lra |]. intros Hzero. lra.
  - repeat split; try done; lra.
Qed.

Lemma utilization_rate_bounds_witness :
  let w := stocked "terminal 1" #1000 TERMINAL "P001" 10 #5 in
  (Warehouse.get_utilization_rate w == #5)%Q
  ∧ (0 <= Warehouse.get_utilization_rate w)%Q
  ∧ (Warehouse.get_utilization_rate w <= #100)%Q
  ∧ (0 <= Warehouse.get_available_capacity w)%Q
  ∧ ((Warehouse.capacity w == 0)%Q → Warehouse.get_utilization_rate w = 0%Q).
Proof.
  cbv zeta. split; [by vm_compute |].
  apply (utilization_rate_bounds (stocked "terminal 1" #1000 TERMINAL "P001" 10 #5)).
  split; by vm_compute.
Defined.

Lemma add_product_positive w p q v :
  0 < q → positive_entries w →
  positive_entries (Warehouse.add_product w p q v).2.
Proof.
  intros Hq Hw. unfold Warehouse.add_product.
  destruct (Qlt_le_dec _ _); [done |]. intros p' have; cbn.
  rewrite lookup_insert. case_decide; [| apply Hw].
  intros [= <-]. destruct (Warehouse.products w !! p) as [old |] eqn:Hp; cbn; [| lia].
  specialize (Hw p old Hp). lia.
Qed.

Lemma remove_product_positive w p q v :
  positive_entries w → positive_entries (Warehouse.remove_product w p q v).2.
Proof.
  intros Hw. unfold Warehouse.remove_product.
  destruct (Warehouse.products w !! p) as [old |] eqn:Hp; [| done].
  case_decide; [done |]. intros p' have; cbn. case_decide.
  - intros [_ ?]%lookup_delete_Some. by apply (Hw p').
  - rewrite lookup_insert. case_decide; [intros [= <-]; lia | apply Hw].
Qed.


Lemma positive_entries_init nm pos cap ty :
  positive_entries (Warehouse.init nm pos cap ty).
Proof. intros p have. cbn. by rewrite lookup_empty. Qed.


(** ** The grid *)

(** X8. [get_neighbors] returns exactly the free cells next to a position:
    a position is returned if and only if it is in bounds, not an obstacle
    and at Manhattan distance 1. *)
Theorem get_neighbors_exact (pl : PathPlanner.t) (p n : Position) :
  n ∈ PathPlanner.get_neighbors pl p
  ↔ PathPlanner.free_cell pl (PathPlanner.key n) ∧ distance_to p n = 1.
Proof.
  split; [apply get_neighbors_spec |].
  intros [Hfree Hdist]. destruct p as [x y], n as [nx ny].
  unfold distance_to in Hdist; cbn in Hdist.
  unfold PathPlanner.get_neighbors. apply list_elem_of_omap; cbn.
  assert ((nx = x + 0 ∧ ny = y + 1) ∨ (nx = x + 1 ∧ ny = y + 0)
          ∨ (nx = x + 0 ∧ ny = y + -1) ∨ (nx = x + -1 ∧ ny = y + 0))
    as [[-> ->] | [[-> ->] | [[-> ->] | [-> ->]]]] by lia.
  - exists (0, 1). split; [set_solver |]. cbn. by case_decide.
  - exists (1, 0). split; [set_solver |]. cbn. by case_decide.
  - exists (0, -1). split; [set_solver |]. cbn. by case_decide.
  - exists (-1, 0). split; [set_solver |]. cbn. by case_decide.
Qed.

Lemma heuristic_step a b goal :
  distance_to a b = 1 →
  PathPlanner.heuristic a goal ≤ 1 + PathPlanner.heuristic b goal.
Proof. unfold distance_to, PathPlanner.heuristic. lia. Qed.

Lemma heuristic_below_steps goal path : ∀ a,
  head path = Some a →
  last path = Some goal →
  (∀ i x y, path !! i = Some x → path !! S i = Some y → distance_to x y = 1) →
  PathPlanner.heuristic a goal ≤ Z.of_nat (length path) - 1.
Proof.
  induction path as [| x [| y rest] IH]; intros a Hhead Hlast Hstep.
  - done.
  - cbn in *. simplify_eq. unfold PathPlanner.heuristic. lia.
  - injection Hhead as <-.
    pose proof (Hstep 0%nat x y eq_refl eq_refl) as Hxy.
    pose proof (IH y eq_refl Hlast (λ i, Hstep (S i))) as Hrest.
    pose proof (heuristic_step x y goal Hxy).
    cbn [length] in *. lia.
Qed.

(** X9. The heuristic is admissible: it is at most the number of steps of
    any grid path from the position to the goal. *)
Theorem heuristic_admissible (pl : PathPlanner.t) (start goal : Position)
    (path : list Position) :
  valid_path pl start goal path →
  PathPlanner.heuristic start goal ≤ Z.of_nat (length path) - 1.
Proof.
  intros (Hhead & Hlast & _ & Hstep). by apply heuristic_below_steps.
Qed.

Lemma heuristic_admissible_witness :
  let pl := PathPlanner.add_obstacle (grid 3 3) (mkPosition 1 1) in
  let path := [origin; mkPosition 0 1; mkPosition 0 2; mkPosition 1 2] in
  valid_path pl origin (mkPosition 1 2) path
  ∧ PathPlanner.heuristic origin (mkPosition 1 2) ≤ Z.of_nat (length path) - 1.
Proof.
  cbv zeta.
  assert (valid_path (PathPlanner.add_obstacle (grid 3 3) (mkPosition 1 1)) origin
            (mkPosition 1 2) [origin; mkPosition 0 1; mkPosition 0 2; mkPosition 1 2])
    as Hvalid.
  { split; [done |]. split; [done |]. split.
    - repeat constructor; by vm_compute.
    - intros [| [| [| i]]] a b; cbn; intros; simplify_eq; done. }
  split; [exact Hvalid |].
  exact (heuristic_admissible _ _ _ _ Hvalid).
Defined.

(** X10. Removing an obstacle that was just added gives the planner back
    when the cell was free of obstacles before; adding an obstacle twice is
    adding it once; and no position has an obstacle cell among its
    neighbours. *)
Theorem obstacle_add_remove (pl : PathPlanner.t) (position p : Position) :
  PathPlanner.key position ∉ PathPlanner.obstacles pl →
  PathPlanner.remove_obstacle (PathPlanner.add_obstacle pl position) position = pl
  ∧ PathPlanner.add_obstacle (PathPlanner.add_obstacle pl position) position
    = PathPlanner.add_obstacle pl position
  ∧ position ∉ PathPlanner.get_neighbors (PathPlanner.add_obstacle pl position) p.
Proof.
  intros Hfree. destruct pl as [w h obstacles].
  unfold PathPlanner.remove_obstacle, PathPlanner.add_obstacle; cbn in *.
  split; [f_equal; set_solver |]. split; [f_equal; set_solver |].
  intros [(_ & _ & Hin) _]%get_neighbors_spec. cbn in Hin. set_solver.
Qed.

Lemma obstacle_add_remove_witness :
  let pl := grid 3 3 in
  let position := mkPosition 1 1 in
  PathPlanner.remove_obstacle (PathPlanner.add_obstacle pl position) position = pl
  ∧ PathPlanner.add_obstacle (PathPlanner.add_obstacle pl position) position
    = PathPlanner.add_obstacle pl position
  ∧ position ∉ PathPlanner.get_neighbors (PathPlanner.add_obstacle pl position)
                 (mkPosition 0 1).
Proof.
  cbv zeta. apply (obstacle_add_remove (grid 3 3) (mkPosition 1 1) (mkPosition 0 1)).
  cbn. set_solver.
Defined.

(** ** Queries that the planner answers at once *)

(** X11. A query whose goal is its start returns the path made of that one
    position, whether or not the position lies inside the grid, as long as it
    is not an obstacle. *)
Theorem a_star_same_cell (turns : nat) (pl : PathPlanner.t) (p : Position) :
  PathPlanner.key p ∉ PathPlanner.obstacles pl →
  PathPlanner.a_star_path (S turns) pl p p = Some (inr [p]).
Proof.
  intros Hfree. unfold PathPlanner.a_star_path.
  case_decide as Hobstacle; [by destruct Hobstacle |].
  cbn. case_decide as Hgoal; [| by destruct Hgoal].
  by rewrite lookup_empty.
Qed.

Lemma a_star_same_cell_witness :
  PathPlanner.a_star_path 1 (grid 5 5) (mkPosition 7 (-2)) (mkPosition 7 (-2))
  = Some (inr [mkPosition 7 (-2)]).
Proof. apply (a_star_same_cell 0 (grid 5 5) (mkPosition 7 (-2))). set_solver. Defined.

(** X12. A start that has no free neighbour and is not the goal gives the
    empty path, not an error: the open set empties after the start was
    expanded. *)
Theorem a_star_walled_in (turns : nat) (pl : PathPlanner.t) (start goal : Position) :
  PathPlanner.key start ∉ PathPlanner.obstacles pl →
  PathPlanner.key goal ∉ PathPlanner.obstacles pl →
  PathPlanner.get_neighbors pl start = [] →
  start ≠ goal →
  PathPlanner.a_star_path (S (S turns)) pl start goal = Some (inr []).
Proof.
  intros Hstart Hgoal Hnone Hne. unfold PathPlanner.a_star_path.
  case_decide as Hobstacle; [by destruct Hobstacle |].
  cbn [PathPlanner.search_loop PathPlanner.open_set].
  change (heapq.heappop [(0, start)]) with (inr (A := exn) ((0, start), @nil heapq.item)).
  cbn iota beta. case_decide as Hsame.
  - destruct Hne, start, goal, Hsame; cbn in *; congruence.
  - rewrite Hnone. done.
Qed.

Lemma a_star_walled_in_witness :
  let pl := PathPlanner.add_obstacle
              (PathPlanner.add_obstacle (grid 3 3) (mkPosition 0 1)) (mkPosition 1 0) in
  PathPlanner.a_star_path 2 pl origin (mkPosition 2 2) = Some (inr []).
Proof.
  cbv zeta.
  apply (a_star_walled_in 0
           (PathPlanner.add_obstacle
              (PathPlanner.add_obstacle (grid 3 3) (mkPosition 0 1)) (mkPosition 1 0))
           origin (mkPosition 2 2)); [cbn; set_solver | cbn; set_solver | | done].
  by vm_compute.
Defined.

(** X13. Registering equipment closes its own cell: right after
    [add_equipment], every path query that starts from, or leads to, the
    position of the equipment returns the empty path. *)
Theorem registered_equipment_blocks_its_cell (turns : nat) (s : TMSSystem.t)
    (id : string) (e : Equipment.t) (other : Position) :
  let pl := TMSSystem.path_planner (TMSSystem.add_equipment s id e).2 in
  PathPlanner.a_star_path turns pl (Equipment.position e) other = Some (inr [])
  ∧ PathPlanner.a_star_path turns pl other (Equipment.position e) = Some (inr []).
Proof.
  cbv zeta. unfold PathPlanner.a_star_path; cbn.
  split; (case_decide as Hobstacle; [done |]); destruct Hobstacle; set_solver.
Qed.

(** ** Equipment stands on obstacle cells *)

Lemma dict_set_elem {V} (d : list (string * V)) k v x :
  x ∈ Dict.set k v d → x = (k, v) ∨ x ∈ d.
Proof.
  induction d as [| [k0 v0] d IH]; cbn.
  - intros ->%list_elem_of_singleton. by left.
  - case_decide.
    + intros [-> | ?]%elem_of_cons; [by left | right; by right].
    + intros [-> | Hx]%elem_of_cons; [right; left |].
      destruct (IH Hx) as [-> | ?]; [by left | right; by right].
Qed.

Lemma dict_get_elem {V} (d : list (string * V)) k v :
  Dict.get k d = Some v → (k, v) ∈ d.
Proof.
  induction d as [| [k0 v0] d IH]; cbn; [done |].
  case_decide; [intros [= ->]; subst; left | intros ?; right; auto].
Qed.

Lemma dict_elem_get {V} (d : list (string * V)) k v :
  (k, v) ∈ d → is_Some (Dict.get k d).
Proof.
  induction d as [| [k0 v0] d IH]; cbn; [by intros ?%elem_of_nil |].
  case_decide; [done |]. intros [[= ? ?] | ?]%elem_of_cons; [done | auto].
Qed.

Lemma same_places_refl s : same_places s s.
Proof. split; [done |]. intros ke ?. by exists ke. Qed.

Lemma same_places_trans s1 s2 s3 :
  same_places s1 s2 → same_places s2 s3 → same_places s1 s3.
Proof.
  intros [Hp12 He12] [Hp23 He23]. split; [congruence |].
  intros ke3 (ke2 & Hin2 & Heq2)%He23. destruct (He12 ke2 Hin2) as (ke1 & ? & ?).
  exists ke1. split; [done | congruence].
Qed.

Lemma same_places_equipment s s' :
  TMSSystem.path_planner s' = TMSSystem.path_planner s →
  TMSSystem.equipment s' = TMSSystem.equipment s →
  same_places s s'.
Proof. intros Hp He. split; [done |]. rewrite He. intros ke ?. by exists ke. Qed.

Lemma same_places_set_equipment s id e ke :
  ke ∈ TMSSystem.equipment s →
  Equipment.position e = Equipment.position ke.2 →
  same_places s (TMSSystem.set_equipment s id e).
Proof.
  intros Hin Hpos. split; [done |]. cbn.
  intros ke' [-> | ?]%dict_set_elem; [by exists ke | by exists ke'].
Qed.

Lemma parked_same_places s s' : same_places s s' → parked s → parked s'.
Proof.
  intros [Hp He] Hparked ke' (ke & Hin & Hpos)%He. rewrite Hp, Hpos. by apply Hparked.
Qed.

Lemma assign_places s t e :
  same_places s (TMSSystem.assign_equipment_to_task s t e).2.
Proof.
  unfold TMSSystem.assign_equipment_to_task.
  destruct (Dict.get t _) as [task |]; [| apply same_places_refl].
  destruct (Dict.get e _) as [eq |] eqn:He; [| apply same_places_refl].
  destruct (negb _); [apply same_places_refl |].
  case_decide; [apply same_places_refl |]. cbn [snd].
  apply (same_places_trans _ (TMSSystem.set_task s t (Task.assign e task))).
  - by apply same_places_equipment.
  - apply same_places_set_equipment with (e, eq); [| done].
    by apply dict_get_elem.
Qed.

Lemma take_from_first_places s p q ws :
  same_places s (TMSSystem.take_from_first s p q ws).1.
Proof.
  induction ws as [| [wid w] ws IH]; cbn; [apply same_places_refl |].
  destruct (TMSSystem.holds w p q); [| done].
  destruct (TMSSystem.products s !! p); [| apply same_places_refl].
  by apply same_places_equipment.
Qed.

Lemma ship_lines_places lines : ∀ s,
  same_places s (TMSSystem.ship_lines s lines).1.
Proof.
  induction lines as [| [p q] lines IH]; intros s; cbn; [apply same_places_refl |].
  pose proof (take_from_first_places s p q
    (filter (λ kw, TMSSystem.is_product_warehouse kw.2 = true)
            (TMSSystem.warehouses s))) as Hfirst.
  destruct (TMSSystem.take_from_first _ _ _ _) as [s' [e |]]; cbn in *; [done |].
  by eapply same_places_trans.
Qed.

Lemma transfer_line_places s src tgt p q :
  same_places s (TMSSystem.transfer_line s src tgt p q).1.
Proof.
  unfold TMSSystem.transfer_line.
  destruct (Dict.get src _); [| apply same_places_refl].
  destruct (TMSSystem.holds _ _ _); [| apply same_places_refl].
  destruct (TMSSystem.products s !! p); [| apply same_places_refl].
  destruct (Dict.get tgt _); by apply same_places_equipment.
Qed.

Lemma transfer_lines_places src tgt lines : ∀ s,
  same_places s (TMSSystem.transfer_lines s src tgt lines).1.
Proof.
  induction lines as [| [p q] lines IH]; intros s; cbn; [apply same_places_refl |].
  pose proof (transfer_line_places s src tgt p q) as Hline.
  destruct (TMSSystem.transfer_line _ _ _ _ _) as [s' [e |]]; cbn in *; [done |].
  by eapply same_places_trans.
Qed.

Lemma cranes_where_elem p eqs id e crane rest :
  TMSSystem.cranes_where p eqs = (id, e, crane) :: rest →
  (id, e) ∈ eqs ∧ Equipment.variant e = Equipment.KCrane crane ∧ p e crane = true.
Proof.
  intros Heq.
  assert ((id, e, crane) ∈ TMSSystem.cranes_where p eqs) as Hin by (rewrite Heq; left).
  apply list_elem_of_omap in Hin as ([id' e'] & Hin & Hsome). cbn in Hsome.
  unfold Equipment.as_crane in Hsome.
  destruct (Equipment.variant e') as [c | |] eqn:Hv; try done.
  destruct (p e' c) eqn:Hp; [| done]. by simplify_eq.
Qed.

Lemma run_effect_places s task : same_places s (TMSSystem.run_effect s task).1.
Proof.
  unfold TMSSystem.run_effect. destruct (Task.task_type task).
  - apply ship_lines_places.
  - unfold TMSSystem.execute_internal_transfer_task.
    repeat case_match; try apply same_places_refl. apply transfer_lines_places.
  - unfold TMSSystem.execute_loading_task.
    destruct (Task.product_id _); [| apply same_places_refl].
    destruct (Task.quantity _); [| apply same_places_refl].
    destruct (TMSSystem.cranes_where _ _) as [| [[id e] crane] rest] eqn:Hcranes;
      [apply same_places_refl |].
    destruct (TMSSystem.products s !! _); [| apply same_places_refl]. cbn [fst].
    apply cranes_where_elem in Hcranes as (Hin & _ & _).
    by apply (same_places_set_equipment s id _ (id, e)).
  - unfold TMSSystem.execute_unloading_task.
    destruct (Task.product_id _); [| apply same_places_refl].
    destruct (Task.quantity _); [| apply same_places_refl].
    destruct (TMSSystem.cranes_where _ _) as [| [[id e] crane] rest] eqn:Hcranes;
      [apply same_places_refl |].
    destruct (TMSSystem.products s !! _); [| apply same_places_refl]. cbn [fst].
    apply cranes_where_elem in Hcranes as (Hin & _ & _).
    by apply (same_places_set_equipment s id _ (id, e)).
  - apply same_places_refl.
Qed.

Lemma release_and_save_places s task db_ok :
  same_places s (TMSSystem.release_and_save s task db_ok).1.
Proof.
  unfold TMSSystem.release_and_save.
  destruct (Task.assigned_equipment task) as [id |]; [| apply same_places_refl].
  case_decide; [apply same_places_refl |].
  destruct (Dict.get id _) as [e |] eqn:He; [| apply same_places_refl]. cbn [fst].
  apply (same_places_set_equipment s id _ (id, e)); [by apply dict_get_elem | done].
Qed.

Lemma same_places_set_task s id task : same_places s (TMSSystem.set_task s id task).
Proof. by apply same_places_equipment. Qed.

Lemma execute_task_places s task_id t_start t_end db_ok :
  same_places s (TMSSystem.execute_task s task_id t_start t_end db_ok).2.
Proof.
  unfold TMSSystem.execute_task.
  destruct (Dict.get task_id _) as [task |]; [| apply same_places_refl].
  set (started := Task.start_execution t_start task).
  pose proof (run_effect_places (TMSSystem.set_task s task_id started) started) as Heff.
  pose proof (same_places_set_task s task_id started) as Hstart.
  destruct (TMSSystem.run_effect _ _) as [s2 [e |]]; cbn [fst snd] in *.
  { eapply same_places_trans; [| apply same_places_set_task].
    by eapply same_places_trans. }
  set (completed := Task.complete_task t_end started).
  pose proof (release_and_save_places (TMSSystem.set_task s2 task_id completed)
                completed db_ok) as Hrel.
  assert (same_places s (TMSSystem.set_task s2 task_id completed)) as Hdone.
  { eapply same_places_trans; [| apply same_places_set_task].
    by eapply same_places_trans. }
  destruct (TMSSystem.release_and_save _ _ _) as [s4 [e |]]; cbn [fst snd] in *.
  - eapply same_places_trans; [| apply same_places_set_task].
    by eapply same_places_trans.
  - by eapply same_places_trans.
Qed.

Lemma schedule_task_places s t schedule :
  same_places s (TMSSystem.schedule_task s t schedule).1.
Proof.
  unfold TMSSystem.schedule_task.
  destruct (Dict.get t _) as [task |]; [| apply same_places_refl].
  destruct (TMSSystem.distances _ _ _) as [| [| first others]];
    try apply same_places_refl.
  pose proof (assign_places s t (min_by first others)) as Hassign.
  by destruct (TMSSystem.assign_equipment_to_task _ _ _).
Qed.

Lemma schedule_loop_places ids : ∀ s schedule,
  same_places s (TMSSystem.schedule_loop s ids schedule).1.
Proof.
  induction ids as [| t ids IH]; intros s schedule; cbn; [apply same_places_refl |].
  pose proof (schedule_task_places s t schedule) as Hturn.
  destruct (TMSSystem.schedule_task s t schedule) as [s' [e | schedule']];
    cbn [fst] in *; [done |].
  by eapply same_places_trans.
Qed.

Lemma init_parked grid_size : parked (TMSSystem.init grid_size).
Proof. by intros ke ?%elem_of_nil. Qed.

Lemma add_equipment_parked s id e :
  parked s → parked (TMSSystem.add_equipment s id e).2.
Proof.
  intros Hparked ke [-> | Hin]%dict_set_elem; cbn; [set_solver |].
  specialize (Hparked ke Hin). set_solver.
Qed.



(** X15. The move endpoint never moves equipment that stands on an obstacle
    cell: while every registered equipment is parked, a move request answers
    400 for a registered id and 404 for an unknown one, for any target, and
    changes nothing. *)
Theorem move_endpoint_refuses (turns : nat) (s : TMSSystem.t) (equipment_id : string)
    (target_position : Position) :
  parked s →
  Api.move_equipment turns s equipment_id target_position
  = Some (match Dict.get equipment_id (TMSSystem.equipment s) with
          | Some _ => 400
          | None => 404
          end, s).
Proof.
  intros Hparked. unfold Api.move_equipment.
  destruct (Dict.get equipment_id _) as [e |] eqn:He; [| done].
  apply dict_get_elem, Hparked in He. cbn in He.
  unfold PathPlanner.a_star_path. case_decide as Hobstacle; [done |].
  destruct Hobstacle. by left.
Qed.

Lemma move_endpoint_refuses_witness :
  let s := (TMSSystem.add_equipment (TMSSystem.init (20, 20)) "T001" truck).2 in
  Api.move_equipment 400 s "T001" (mkPosition 6 5) = Some (400, s).
Proof.
  cbv zeta.
  apply (move_endpoint_refuses 400
           (TMSSystem.add_equipment (TMSSystem.init (20, 20)) "T001" truck).2
           "T001" (mkPosition 6 5)).
  apply add_equipment_parked, init_parked.
Defined.

(** ** Assignment *)

(** X16. [assign_equipment_to_task] either claims an idle equipment or does
    nothing: on success the equipment was Idle, is now Busy with the task as
    its current task, the task names it, stock and catalog are untouched, and
    any further assignment of that equipment is refused; on failure the
    system is unchanged. *)
Theorem assignment_claims_idle_equipment (s : TMSSystem.t) (task_id equipment_id : string) :
  let r := TMSSystem.assign_equipment_to_task s task_id equipment_id in
  if r.1
  then equipment_status s equipment_id = Some IDLE
       ∧ equipment_status r.2 equipment_id = Some BUSY
       ∧ equipment_task r.2 equipment_id = Some task_id
       ∧ assigned_to r.2 task_id = Some equipment_id
       ∧ task_status r.2 task_id = task_status s task_id
       ∧ TMSSystem.warehouses r.2 = TMSSystem.warehouses s
       ∧ TMSSystem.products r.2 = TMSSystem.products s
       ∧ ∀ other, TMSSystem.assign_equipment_to_task r.2 other equipment_id = (false, r.2)
  else r.2 = s.
Proof.
  cbv zeta.
  destruct (TMSSystem.assign_equipment_to_task s task_id equipment_id)
    as [ok s'] eqn:Hr.
  cbn [fst snd]. unfold TMSSystem.assign_equipment_to_task in Hr.
  destruct (Dict.get task_id (TMSSystem.tasks s)) as [task |] eqn:Ht;
    [| by injection Hr as <- <-].
  destruct (Dict.get equipment_id (TMSSystem.equipment s)) as [e |] eqn:He;
    [| by injection Hr as <- <-].
  destruct (negb _); [by injection Hr as <- <- |].
  case_decide as Hidle; injection Hr as <- <-; [done |].
  unfold equipment_status, equipment_task, assigned_to, task_status; cbn.
  rewrite !dict_get_set_eq, He, Ht; cbn. rewrite Hidle.
  repeat split. intros other. unfold TMSSystem.assign_equipment_to_task; cbn.
  rewrite dict_get_set_eq. destruct (Dict.get other _); [| done].
  destruct (negb _); [done |]. by case_decide.
Qed.

(** X17. An assignment that succeeds respects the capabilities: a crane gets
    loading, unloading or move tasks, a frame truck gets ship transport or
    internal transfer tasks, and a frame gets none. *)
Theorem assignment_respects_capability (s : TMSSystem.t) (task_id equipment_id : string) :
  (TMSSystem.assign_equipment_to_task s task_id equipment_id).1 = true →
  ∃ task e,
    Dict.get task_id (TMSSystem.tasks s) = Some task
    ∧ Dict.get equipment_id (TMSSystem.equipment s) = Some e
    ∧ match Equipment.variant e with
      | Equipment.KCrane _ =>
          Task.task_type task ∈ [LOADING; UNLOADING; MOVE_EQUIPMENT]
      | Equipment.KFrameTruck _ =>
          Task.task_type task ∈ [SHIP_TRANSPORT; INTERNAL_TRANSFER]
      | Equipment.KFrame _ => False
      end.
Proof.
  unfold TMSSystem.assign_equipment_to_task.
  destruct (Dict.get task_id _) as [task |]; [| done].
  destruct (Dict.get equipment_id _) as [e |]; [| done].
  destruct (Equipment.can_perform_task e (Task.task_type task)) eqn:Hcan; [| done].
  intros _. exists task, e. split; [done |]. split; [done |].
  unfold Equipment.can_perform_task in Hcan.
  destruct (Equipment.variant e); [| | done]; by apply bool_decide_eq_true in Hcan.
Qed.

Lemma assignment_respects_capability_witness :
  let s := yard #2000 (transfer_task "TW001" "PW001" [("P001", 4)]) in
  ∃ task e,
    Dict.get "T1" (TMSSystem.tasks s) = Some task
    ∧ Dict.get "T001" (TMSSystem.equipment s) = Some e
    ∧ match Equipment.variant e with
      | Equipment.KCrane _ =>
          Task.task_type task ∈ [LOADING; UNLOADING; MOVE_EQUIPMENT]
      | Equipment.KFrameTruck _ =>
          Task.task_type task ∈ [SHIP_TRANSPORT; INTERNAL_TRANSFER]
      | Equipment.KFrame _ => False
      end.
Proof.
  cbv zeta.
  apply (assignment_respects_capability
           (yard #2000 (transfer_task "TW001" "PW001" [("P001", 4)])) "T1" "T001").
  by vm_compute.
Defined.

(** ** Execution *)

(** X18. When [execute_task] answers success for a task with assigned
    equipment, the task is Completed, still names the equipment, and the
    equipment is Idle with no current task. *)
Theorem completed_task_releases_equipment (s : TMSSystem.t) (task_id : string)
    (task : Task.t) (equipment_id : string) (t_start t_end : Z) (db_ok : bool) :
  Dict.get task_id (TMSSystem.tasks s) = Some task →
  Task.assigned_equipment task = Some equipment_id →
  equipment_id ≠ "" →
  let r := TMSSystem.execute_task s task_id t_start t_end db_ok in
  r.1 = true →
  task_status r.2 task_id = Some COMPLETED
  ∧ assigned_to r.2 task_id = Some equipment_id
  ∧ equipment_status r.2 equipment_id = Some IDLE
  ∧ equipment_task r.2 equipment_id = None.
Proof.
  intros Hget Hassigned Hne. cbv zeta. unfold TMSSystem.execute_task. rewrite Hget.
  destruct (TMSSystem.run_effect _ _) as [s2 [e |]]; [done |].
  unfold TMSSystem.release_and_save. cbn [Task.complete_task Task.start_execution
    Task.assigned_equipment]. rewrite Hassigned. case_decide; [done |].
  destruct (Dict.get equipment_id _) as [eq |] eqn:He; [| done].
  destruct db_ok; [| done]. intros _. cbn [snd].
  unfold task_status, assigned_to, equipment_status, equipment_task; cbn.
  by rewrite !dict_get_set_eq.
Qed.

Lemma completed_task_releases_equipment_witness :
  let s := assigned_yard #2000 (transfer_task "TW001" "PW001" [("P001", 4)]) in
  let r := TMSSystem.execute_task s "T1" 1 2 true in
  equipment_status s "T001" = Some BUSY
  ∧ task_status r.2 "T1" = Some COMPLETED
  ∧ assigned_to r.2 "T1" = Some "T001"
  ∧ equipment_status r.2 "T001" = Some IDLE
  ∧ equipment_task r.2 "T001" = None.
Proof.
  cbv zeta. split; [by vm_compute |].
  apply (completed_task_releases_equipment
           (assigned_yard #2000 (transfer_task "TW001" "PW001" [("P001", 4)])) "T1"
           (Task.assign "T001" (transfer_task "TW001" "PW001" [("P001", 4)]))
           "T001" 1 2 true); by vm_compute.
Defined.

Lemma same_ids_refl s : same_ids s s.
Proof. by repeat split. Qed.

Lemma same_ids_trans s1 s2 s3 : same_ids s1 s2 → same_ids s2 s3 → same_ids s1 s3.
Proof.
  intros (? & ? & ? & ? & ?) (? & ? & ? & ? & ?). repeat split; congruence.
Qed.

Lemma same_ids_set_task s id task :
  is_Some (Dict.get id (TMSSystem.tasks s)) → same_ids s (TMSSystem.set_task s id task).
Proof. intros Hid. repeat split; cbn. by apply dict_keys_set. Qed.

Lemma same_ids_set_warehouse s id w :
  is_Some (Dict.get id (TMSSystem.warehouses s)) →
  same_ids s (TMSSystem.set_warehouse s id w).
Proof. intros Hid. repeat split; cbn. by apply dict_keys_set. Qed.

Lemma same_ids_set_equipment s id e :
  is_Some (Dict.get id (TMSSystem.equipment s)) →
  same_ids s (TMSSystem.set_equipment s id e).
Proof. intros Hid. repeat split; cbn. by apply dict_keys_set. Qed.

Lemma same_ids_log s entry : same_ids s (TMSSystem.log s entry).
Proof. by repeat split. Qed.

Lemma same_ids_get {V} (d d' : list (string * V)) k :
  d'.*1 = d.*1 → is_Some (Dict.get k d) → is_Some (Dict.get k d').
Proof.
  revert d'. induction d as [| [k0 v0] d IH]; intros [| [k1 v1] d']; cbn; try done.
  intros [= -> Hrest]. case_decide; [done | by apply IH].
Qed.

Lemma take_from_first_ids s p q ws :
  (∀ kw, kw ∈ ws → kw ∈ TMSSystem.warehouses s) →
  same_ids s (TMSSystem.take_from_first s p q ws).1.
Proof.
  induction ws as [| [wid w] ws IH]; intros Hsub; cbn; [apply same_ids_refl |].
  destruct (TMSSystem.holds w p q).
  - destruct (TMSSystem.products s !! p); [| apply same_ids_refl]. cbn [fst].
    eapply same_ids_trans; [| apply same_ids_log].
    apply same_ids_set_warehouse. apply (dict_elem_get _ wid w), Hsub. left.
  - apply IH. intros kw ?. apply Hsub. by right.
Qed.

Lemma ship_lines_ids lines : ∀ s, same_ids s (TMSSystem.ship_lines s lines).1.
Proof.
  induction lines as [| [p q] lines IH]; intros s; cbn; [apply same_ids_refl |].
  pose proof (take_from_first_ids s p q
    (filter (λ kw, TMSSystem.is_product_warehouse kw.2 = true)
            (TMSSystem.warehouses s))) as Hfirst.
  destruct (TMSSystem.take_from_first _ _ _ _) as [s' [e |]]; cbn [fst] in *.
  - apply Hfirst. by intros kw [_ ?]%list_elem_of_filter.
  - eapply same_ids_trans; [| apply IH].
    apply Hfirst. by intros kw [_ ?]%list_elem_of_filter.
Qed.

Lemma transfer_line_ids s src tgt p q :
  same_ids s (TMSSystem.transfer_line s src tgt p q).1.
Proof.
  unfold TMSSystem.transfer_line.
  destruct (Dict.get src _) as [source |] eqn:Hsrc; [| apply same_ids_refl].
  destruct (TMSSystem.holds _ _ _); [| apply same_ids_refl].
  destruct (TMSSystem.products s !! p) as [product |]; [| apply same_ids_refl].
  assert (same_ids s (TMSSystem.set_warehouse s src
            (Warehouse.remove_product source p q (volume product)).2)) as H1.
  { apply same_ids_set_warehouse. by rewrite Hsrc. }
  destruct (Dict.get tgt _) as [target |] eqn:Htgt; cbn [fst]; [| done].
  eapply same_ids_trans; [exact H1 |].
  eapply same_ids_trans; [| apply same_ids_log].
  apply same_ids_set_warehouse. by rewrite Htgt.
Qed.

Lemma transfer_lines_ids src tgt lines : ∀ s,
  same_ids s (TMSSystem.transfer_lines s src tgt lines).1.
Proof.
  induction lines as [| [p q] lines IH]; intros s; cbn; [apply same_ids_refl |].
  pose proof (transfer_line_ids s src tgt p q) as Hline.
  destruct (TMSSystem.transfer_line _ _ _ _ _) as [s' [e |]]; cbn in *; [done |].
  by eapply same_ids_trans.
Qed.

Lemma run_effect_ids s task : same_ids s (TMSSystem.run_effect s task).1.
Proof.
  unfold TMSSystem.run_effect. destruct (Task.task_type task).
  - apply ship_lines_ids.
  - unfold TMSSystem.execute_internal_transfer_task.
    repeat case_match; try apply same_ids_refl. apply transfer_lines_ids.
  - unfold TMSSystem.execute_loading_task.
    destruct (Task.product_id _); [| apply same_ids_refl].
    destruct (Task.quantity _); [| apply same_ids_refl].
    destruct (TMSSystem.cranes_where _ _) as [| [[id e] crane] rest] eqn:Hcranes;
      [apply same_ids_refl |].
    destruct (TMSSystem.products s !! _); [| apply same_ids_refl]. cbn [fst].
    apply cranes_where_elem in Hcranes as (Hin & _ & _).
    eapply same_ids_trans; [| apply same_ids_log].
    apply same_ids_set_equipment. by apply (dict_elem_get _ id e).
  - unfold TMSSystem.execute_unloading_task.
    destruct (Task.product_id _); [| apply same_ids_refl].
    destruct (Task.quantity _); [| apply same_ids_refl].
    destruct (TMSSystem.cranes_where _ _) as [| [[id e] crane] rest] eqn:Hcranes;
      [apply same_ids_refl |].
    destruct (TMSSystem.products s !! _); [| apply same_ids_refl]. cbn [fst].
    apply cranes_where_elem in Hcranes as (Hin & _ & _).
    eapply same_ids_trans; [| apply same_ids_log].
    apply same_ids_set_equipment. by apply (dict_elem_get _ id e).
  - apply same_ids_refl.
Qed.

Lemma release_and_save_ids s task db_ok :
  same_ids s (TMSSystem.release_and_save s task db_ok).1.
Proof.
  unfold TMSSystem.release_and_save.
  destruct (Task.assigned_equipment task) as [id |]; [| apply same_ids_refl].
  case_decide; [apply same_ids_refl |].
  destruct (Dict.get id _) as [e |] eqn:He; [| apply same_ids_refl]. cbn [fst].
  apply same_ids_set_equipment. by rewrite He.
Qed.

(** X19. [execute_task] registers and removes nothing: whatever the task id
    and the outcome, the catalog and the planner are the same afterwards and
    the registries of tasks, warehouses and equipment hold the same ids in
    the same order; an unknown task id answers failure and changes nothing
    at all. *)
Theorem execute_task_keeps_registries (s : TMSSystem.t) (task_id : string)
    (t_start t_end : Z) (db_ok : bool) :
  let r := TMSSystem.execute_task s task_id t_start t_end db_ok in
  same_ids s r.2
  ∧ match Dict.get task_id (TMSSystem.tasks s) with
    | None => r = (false, s)
    | Some _ => is_Some (Dict.get task_id (TMSSystem.tasks r.2))
    end.
Proof.
  cbv zeta. unfold TMSSystem.execute_task.
  destruct (Dict.get task_id (TMSSystem.tasks s)) as [task |] eqn:Hget;
    [| split; [apply same_ids_refl | done]].
  set (started := Task.start_execution t_start task).
  assert (same_ids s (TMSSystem.set_task s task_id started)) as Hstart.
  { apply same_ids_set_task. by rewrite Hget. }
  pose proof (run_effect_ids (TMSSystem.set_task s task_id started) started) as Heff.
  assert (∀ s', same_ids s s' → ∀ task',
            same_ids s (TMSSystem.set_task s' task_id task')) as Hset.
  { intros s' Hs' task'. eapply same_ids_trans; [exact Hs' |].
    apply same_ids_set_task. destruct Hs' as (_ & _ & Hkeys & _).
    apply (same_ids_get _ _ _ Hkeys). by rewrite Hget. }
  destruct (TMSSystem.run_effect _ _) as [s2 [e |]]; cbn [fst snd] in *.
  { split; [| cbn; by rewrite dict_get_set_eq].
    apply Hset. by eapply same_ids_trans. }
  set (completed := Task.complete_task t_end started).
  pose proof (release_and_save_ids (TMSSystem.set_task s2 task_id completed)
                completed db_ok) as Hrel.
  pose proof (release_and_save_tasks (TMSSystem.set_task s2 task_id completed)
                completed db_ok) as Htasks.
  assert (same_ids s (TMSSystem.set_task s2 task_id completed)) as Hdone.
  { apply Hset. by eapply same_ids_trans. }
  destruct (TMSSystem.release_and_save _ _ _) as [s4 [e |]]; cbn [fst snd] in *.
  - split; [| cbn; by rewrite dict_get_set_eq].
    apply Hset. by eapply same_ids_trans.
  - split; [by eapply same_ids_trans |].
    rewrite Htasks. cbn. by rewrite dict_get_set_eq.
Qed.

Lemma transfer_line_applied s src tgt p q have source target product :
  src ≠ tgt →
  Dict.get src (TMSSystem.warehouses s) = Some source →
  Dict.get tgt (TMSSystem.warehouses s) = Some target →
  TMSSystem.products s !! p = Some product →
  Warehouse.products source !! p = Some have →
  q ≤ have →
  TMSSystem.transfer_line s src tgt p q
  = (TMSSystem.log
       (TMSSystem.set_warehouse
          (TMSSystem.set_warehouse s src
             (Warehouse.remove_product source p q (volume product)).2)
          tgt (Warehouse.add_product target p q (volume product)).2)
       (TMSSystem.LogTransfer (Warehouse.name source) q (product_name product)
          (Warehouse.name target)),
     None).
Proof.
  intros Hne Hsrc Htgt Hp Hhave Hq. unfold TMSSystem.transfer_line.
  rewrite Hsrc.
  assert (TMSSystem.holds source p q = true) as ->.
  { unfold TMSSystem.holds. rewrite Hhave. by apply bool_decide_eq_true. }
  rewrite Hp. cbn [TMSSystem.set_warehouse TMSSystem.warehouses].
  rewrite (dict_get_set_ne _ tgt src) by congruence. by rewrite Htgt.
Qed.



(** ** The scheduling pass *)

Section SortedFacts.
Context {A : Type} (key_lt : A → A → bool).

Lemma insert_sorted_perm x l : insert_sorted key_lt x l ≡ₚ x :: l.
Proof.
  induction l as [| y l IH]; cbn; [done |].
  destruct (key_lt y x); [| done]. rewrite IH. apply Permutation_swap.
Qed.

Lemma sorted_perm l : sorted key_lt l ≡ₚ l.
Proof.
  induction l as [| x l IH]; cbn; [done |].
  fold (sorted key_lt l). by rewrite insert_sorted_perm, IH.
Qed.

Context (before : A → A → Prop).
Hypothesis before_trans : ∀ a b c, before a b → before b c → before a c.
Hypothesis lt_before : ∀ a b, key_lt a b = true → before a b.
Hypothesis not_lt_before : ∀ a b, key_lt a b = false → before b a.

Lemma insert_sorted_ordered x l :
  StronglySorted before l → StronglySorted before (insert_sorted key_lt x l).
Proof.
  induction 1 as [| y l Hsorted IH Hy]; cbn; [by repeat constructor |].
  destruct (key_lt y x) eqn:Hlt.
  - constructor; [done |]. rewrite insert_sorted_perm. constructor; auto.
  - constructor; [by constructor |]. constructor; [auto |].
    eapply Forall_impl; [exact Hy |]. intros z ?. eauto.
Qed.

Lemma sorted_ordered l : StronglySorted before (sorted key_lt l).
Proof.
  induction l as [| x l IH]; cbn; [constructor |]. by apply insert_sorted_ordered.
Qed.
End SortedFacts.

Lemma schedule_before_trans a b c :
  schedule_before a b → schedule_before b c → schedule_before a c.
Proof. unfold schedule_before. lia. Qed.

Lemma schedule_key_lt_before a b :
  TMSSystem.schedule_key_lt a b = true → schedule_before a b.
Proof.
  unfold TMSSystem.schedule_key_lt, TMSSystem.schedule_key, schedule_before.
  cbn. intros ?%bool_decide_eq_true. lia.
Qed.

Lemma schedule_key_not_lt_before a b :
  TMSSystem.schedule_key_lt a b = false → schedule_before b a.
Proof.
  unfold TMSSystem.schedule_key_lt, TMSSystem.schedule_key, schedule_before.
  cbn. intros ?%bool_decide_eq_false. lia.
Qed.

Lemma schedule_task_appends s t schedule s' out :
  TMSSystem.schedule_task s t schedule = (s', inr out) →
  out = schedule ∨ out = schedule ++ [t].
Proof.
  unfold TMSSystem.schedule_task.
  destruct (Dict.get t (TMSSystem.tasks s)) as [task |]; [| done].
  destruct (TMSSystem.distances _ _ _) as [e | [| first others]]; [done | |].
  - intros [= _ <-]. by left.
  - destruct (TMSSystem.assign_equipment_to_task _ _ _) as [[] s1];
      intros [= _ <-]; [by right | by left].
Qed.

Lemma schedule_loop_appends ids : ∀ s schedule s' out,
  TMSSystem.schedule_loop s ids schedule = (s', inr out) →
  ∃ more, out = schedule ++ more ∧ more `sublist_of` ids.
Proof.
  induction ids as [| t ids IH]; intros s schedule s' out; cbn.
  - intros [= _ <-]. exists []. by rewrite app_nil_r.
  - destruct (TMSSystem.schedule_task s t schedule) as [s1 [e | mid]] eqn:Hstep;
      [done |].
    intros (more & -> & Hsub)%IH.
    destruct (schedule_task_appends _ _ _ _ _ Hstep) as [-> | ->].
    + exists more. split; [done | by apply sublist_cons].
    + exists (t :: more). split; [by rewrite <- app_assoc | by apply sublist_skip].
Qed.

(** X21. The schedule that a pass returns follows the order of the
    scheduler: it is a subsequence of the pending tasks put in order of
    priority, highest first, and among equal priorities of deadline,
    earliest first and no deadline last. *)
Theorem schedule_follows_priority (s s' : TMSSystem.t) (schedule : list string) :
  TMSSystem.optimize_task_schedule s = (s', inr schedule) →
  ∃ ordered, ordered ≡ₚ pending s
             ∧ StronglySorted schedule_before ordered
             ∧ schedule `sublist_of` ordered.*1.
Proof.
  unfold TMSSystem.optimize_task_schedule. cbv zeta. fold (pending s).
  intros (more & -> & Hsub)%schedule_loop_appends.
  exists (sorted TMSSystem.schedule_key_lt (pending s)).
  split; [apply sorted_perm |]. split; [| done].
  apply sorted_ordered.
  - apply schedule_before_trans.
  - apply schedule_key_lt_before.
  - apply schedule_key_not_lt_before.
Qed.

Lemma schedule_follows_priority_witness :
  ∃ ordered, ordered ≡ₚ pending two_task_yard
             ∧ StronglySorted schedule_before ordered
             ∧ ["T1"; "T2"] `sublist_of` ordered.*1.
Proof.
  apply (schedule_follows_priority two_task_yard
           (TMSSystem.optimize_task_schedule two_task_yard).1).
  by vm_compute.
Defined.

Lemma filter_none {A} (P : A → Prop) `{∀ x, Decision (P x)} (l : list A) :
  (∀ x, x ∈ l → ¬ P x) → filter P l = [].
Proof.
  induction l as [| x l IH]; intros Hnone; [done |].
  rewrite filter_cons_False by (apply Hnone; left).
  apply IH. intros y ?. apply Hnone. by right.
Qed.

Lemma pending_registered s t :
  t ∈ (sorted TMSSystem.schedule_key_lt (pending s)).*1 →
  is_Some (Dict.get t (TMSSystem.tasks s)).
Proof.
  intros ([t' task] & -> & Hin)%list_elem_of_fmap.
  rewrite sorted_perm in Hin. apply list_elem_of_filter in Hin as [_ Hin].
  by eapply dict_elem_get.
Qed.



Lemma reassigned_trans t1 t2 t3 : reassigned t3 t2 → reassigned t2 t1 → reassigned t3 t1.
Proof.
  intros [-> | [e ->]] [-> | [e' ->]]; [by left | right; by exists e'
    | right; by exists e | right; by exists e].
Qed.

Lemma reassigned_tasks_refl (d : list (string * Task.t)) :
  Forall2 (λ kt' kt : string * Task.t, kt'.1 = kt.1 ∧ reassigned kt'.2 kt.2) d d.
Proof. apply Forall2_same_length_lookup_2; [done |]. intros i x y ? ?. simplify_eq. split; [done | by left]. Qed.

Lemma reassigned_tasks_set (d : list (string * Task.t)) k task e :
  Dict.get k d = Some task →
  Forall2 (λ kt' kt : string * Task.t, kt'.1 = kt.1 ∧ reassigned kt'.2 kt.2)
          (Dict.set k (Task.assign e task) d) d.
Proof.
  induction d as [| [k0 t0] d IH]; cbn; [done |].
  case_decide as Hk.
  - intros [= ->]. subst k0. constructor; [| apply reassigned_tasks_refl].
    split; [done |]. right. by exists e.
  - intros ?. constructor; [| auto]. split; [done | by left].
Qed.

Lemma only_assigns_refl s : only_assigns s s.
Proof. repeat split. apply reassigned_tasks_refl. Qed.

Lemma only_assigns_trans s1 s2 s3 :
  only_assigns s1 s2 → only_assigns s2 s3 → only_assigns s1 s3.
Proof.
  intros (? & ? & ? & ? & Ht12) (? & ? & ? & ? & Ht23).
  repeat split; try congruence.
  revert Ht12. generalize (TMSSystem.tasks s1).
  induction Ht23 as [| kt3 kt2 l3 l2 [Hk32 Hr32] _ IH]; intros l1 Ht12;
    inversion Ht12 as [| ? kt1 ? l1' [Hk21 Hr21] Hrest]; subst; constructor.
  - split; [congruence | by eapply reassigned_trans].
  - by apply IH.
Qed.

Lemma assign_only_assigns s t e :
  only_assigns s (TMSSystem.assign_equipment_to_task s t e).2.
Proof.
  unfold TMSSystem.assign_equipment_to_task.
  destruct (Dict.get t (TMSSystem.tasks s)) as [task |] eqn:Ht;
    [| apply only_assigns_refl].
  destruct (Dict.get e (TMSSystem.equipment s)) as [eq |];
    [| apply only_assigns_refl].
  destruct (negb _); [apply only_assigns_refl |].
  case_decide; [apply only_assigns_refl |].
  repeat split. cbn. by apply reassigned_tasks_set.
Qed.

Lemma schedule_task_only_assigns s t schedule :
  only_assigns s (TMSSystem.schedule_task s t schedule).1.
Proof.
  unfold TMSSystem.schedule_task.
  destruct (Dict.get t (TMSSystem.tasks s)) as [task |]; [| apply only_assigns_refl].
  destruct (TMSSystem.distances _ _ _) as [e | [| first others]];
    try apply only_assigns_refl.
  pose proof (assign_only_assigns s t (min_by first others)) as Hassign.
  by destruct (TMSSystem.assign_equipment_to_task _ _ _) as [ok s1].
Qed.

Lemma schedule_loop_only_assigns ids : ∀ s schedule,
  only_assigns s (TMSSystem.schedule_loop s ids schedule).1.
Proof.
  induction ids as [| t ids IH]; intros s schedule; cbn;
    [apply only_assigns_refl |].
  pose proof (schedule_task_only_assigns s t schedule) as Hstep.
  destruct (TMSSystem.schedule_task s t schedule) as [s1 [e | mid]]; [done |].
  eapply only_assigns_trans; [exact Hstep | apply IH].
Qed.

Lemma reassigned_status t' t : reassigned t' t → Task.status t' = Task.status t.
Proof. by intros [-> | [e ->]]. Qed.

Lemma only_assigns_pending s s' : only_assigns s s' → (pending s').*1 = (pending s).*1.
Proof.
  intros (_ & _ & _ & _ & Htasks). unfold pending.
  induction Htasks as [| [k' t'] [k t] l' l [Hk Hr] _ IH]; [done |].
  cbn in Hk. subst k'. apply reassigned_status in Hr. cbn in Hr.
  rewrite !filter_cons. cbn. rewrite Hr.
  case_decide; cbn; by rewrite IH.
Qed.

(** X23. A scheduling pass only assigns: whatever it returns, the catalog,
    the warehouses with their stock, the log and the planner are as before,
    no task is added, removed or moved, and a task changes in its assigned
    equipment at most; so the pending tasks after the pass are the pending
    tasks before it, those just scheduled too. *)
Theorem scheduling_only_assigns (s : TMSSystem.t) :
  let s' := (TMSSystem.optimize_task_schedule s).1 in
  only_assigns s s' ∧ (pending s').*1 = (pending s).*1.
Proof.
  cbv zeta.
  assert (only_assigns s (TMSSystem.optimize_task_schedule s).1) as Honly.
  { unfold TMSSystem.optimize_task_schedule. cbv zeta.
    apply schedule_loop_only_assigns. }
  split; [done | by apply only_assigns_pending].
Qed.

(** ** Loading and ship transport *)

Lemma dict_elem_get_unique {V} (d : list (string * V)) k v :
  unique_ids d → (k, v) ∈ d → Dict.get k d = Some v.
Proof.
  unfold unique_ids.
  induction d as [| [k0 v0] d IH]; cbn; [by intros _ ?%elem_of_nil |].
  intros [Hfresh Hrest]%NoDup_cons [[= -> ->] | Hin]%elem_of_cons.
  - by case_decide.
  - case_decide as Hk; [| auto]. subst k0. destruct Hfresh.
    apply list_elem_of_fmap. by exists (k, v).
Qed.

Lemma unique_ids_set {V} (d : list (string * V)) k v :
  is_Some (Dict.get k d) → unique_ids d → unique_ids (Dict.set k v d).
Proof. intros Hk. unfold unique_ids. by rewrite dict_keys_set. Qed.

Lemma dict_set_same {V} (d : list (string * V)) k v :
  Dict.get k d = Some v → Dict.set k v d = d.
Proof.
  induction d as [| [k0 v0] d IH]; cbn; [done |].
  case_decide; [intros [= ->]; by subst | intros ?; f_equal; auto].
Qed.

Lemma loading_skips_busy s task id e :
  unique_ids (TMSSystem.equipment s) →
  Dict.get id (TMSSystem.equipment s) = Some e →
  Equipment.status e ≠ IDLE →
  Dict.get id (TMSSystem.equipment (TMSSystem.execute_loading_task s task).1)
  = Some e.
Proof.
  intros Hunique Hid Hbusy. unfold TMSSystem.execute_loading_task. cbv zeta.
  destruct (Task.product_id _) as [product_id |]; [| done].
  destruct (Task.quantity _) as [quantity |]; [| done].
  destruct (TMSSystem.cranes_where _ _) as [| [[id' e'] crane] rest] eqn:Hcranes;
    [done |].
  destruct (TMSSystem.products s !! product_id) as [product |]; [| done].
  cbn. apply cranes_where_elem in Hcranes as (Hin & _ & Hidle).
  apply bool_decide_eq_true in Hidle.
  rewrite dict_get_set_ne; [done |]. intros <-.
  apply (dict_elem_get_unique _ _ _ Hunique) in Hin. congruence.
Qed.

(** X24. Executing a loading task never loads equipment that is not Idle
    when the call begins: such equipment has the same load and the same
    products after the call, whatever the call returns. The crane assigned
    to the task is Busy, so the task does not load its own crane. *)
Theorem assigned_crane_is_not_loaded (s : TMSSystem.t) (t : string)
    (task : Task.t) (c : string) (e : Equipment.t) (t_start t_end : Z)
    (db_ok : bool) :
  unique_ids (TMSSystem.equipment s) →
  Dict.get t (TMSSystem.tasks s) = Some task →
  Task.task_type task = LOADING →
  Dict.get c (TMSSystem.equipment s) = Some e →
  Equipment.status e ≠ IDLE →
  Equipment.variant
    <$> Dict.get c
          (TMSSystem.equipment (TMSSystem.execute_task s t t_start t_end db_ok).2)
  = Some (Equipment.variant e).
Proof.
  intros Hunique Ht Htype Hc Hbusy. unfold TMSSystem.execute_task.
  rewrite Ht. cbv zeta.
  set (started := Task.start_execution t_start task).
  set (s1 := TMSSystem.set_task s t started).
  unfold TMSSystem.run_effect.
  replace (Task.task_type started) with LOADING by done.
  pose proof (loading_skips_busy s1 started c e Hunique Hc Hbusy) as Hkept.
  destruct (TMSSystem.execute_loading_task s1 started) as [s2 [exn |]];
    cbn in Hkept; [cbn; by rewrite Hkept |].
  unfold TMSSystem.release_and_save.
  cbn [Task.assigned_equipment Task.complete_task].
  destruct (Task.assigned_equipment started) as [c' |];
    [| destruct db_ok; cbn; by rewrite Hkept].
  case_decide; [destruct db_ok; cbn; by rewrite Hkept |].
  cbn [TMSSystem.equipment TMSSystem.set_task].
  destruct (decide (c' = c)) as [-> | Hother].
  - rewrite Hkept. destruct db_ok; cbn; by rewrite dict_get_set_eq.
  - destruct (Dict.get c' (TMSSystem.equipment s2)) as [e' |];
      [| cbn; by rewrite Hkept].
    destruct db_ok; cbn; by rewrite dict_get_set_ne, Hkept.
Qed.

Lemma assigned_crane_is_not_loaded_witness :
  Equipment.variant
    <$> Dict.get "C001"
          (TMSSystem.equipment (TMSSystem.execute_task (crane_yard 2) "T1" 1 2 true).2)
  = Some (Equipment.KCrane (Crane.mk "TW001" #50 0)).
Proof.
  apply (assigned_crane_is_not_loaded (crane_yard 2) "T1"
           (Task.assign "C001" (loading_task "P001" 2)) "C001"
           (Equipment.with_status (crane "crane 1" (mkPosition 1 1)) BUSY (Some "T1")));
    [| by vm_compute ..].
  apply (bool_decide_unpack _). by vm_compute.
Defined.



Lemma take_from_first_spares p q id w ws : ∀ s,
  unique_ids (TMSSystem.warehouses s) →
  (∀ kw, kw ∈ ws →
         kw ∈ TMSSystem.warehouses s ∧ TMSSystem.is_product_warehouse kw.2 = true) →
  Dict.get id (TMSSystem.warehouses s) = Some w →
  Warehouse.warehouse_type w ≠ PRODUCT →
  let s' := (TMSSystem.take_from_first s p q ws).1 in
  unique_ids (TMSSystem.warehouses s')
  ∧ Dict.get id (TMSSystem.warehouses s') = Some w.
Proof.
  induction ws as [| [wid w0] ws IH]; intros s Hunique Hws Hid Hty; cbn; [done |].
  destruct (TMSSystem.holds w0 p q);
    [| apply IH; [done | | done | done]; intros kw ?; apply Hws; by right].
  destruct (TMSSystem.products s !! p) as [product |]; [| done].
  destruct (Hws (wid, w0)) as [Hin Hproduct]; [left |].
  apply (dict_elem_get_unique _ _ _ Hunique) in Hin. cbn.
  split; [by apply unique_ids_set |].
  rewrite dict_get_set_ne; [done |]. intros <-.
  apply bool_decide_eq_true in Hproduct. cbn in Hproduct. congruence.
Qed.

Lemma ship_lines_spares id w lines : ∀ s,
  unique_ids (TMSSystem.warehouses s) →
  Dict.get id (TMSSystem.warehouses s) = Some w →
  Warehouse.warehouse_type w ≠ PRODUCT →
  Dict.get id (TMSSystem.warehouses (TMSSystem.ship_lines s lines).1) = Some w.
Proof.
  induction lines as [| [p q] lines IH]; intros s Hunique Hid Hty; cbn; [done |].
  destruct (take_from_first_spares p q id w
              (filter (λ kw, TMSSystem.is_product_warehouse kw.2 = true)
                      (TMSSystem.warehouses s)) s) as [Hunique' Hid']; [done | | done.. |].
  { by intros kw [? ?]%list_elem_of_filter. }
  destruct (TMSSystem.take_from_first _ _ _ _) as [s' [e |]]; cbn in *; [done |].
  by apply IH.
Qed.

(** X26. A ship transport task takes from product warehouses only: a
    warehouse of another type, a terminal or a temporary one, is after the
    call as it was before, whatever the task asks for and whether or not
    the call succeeds. *)
Theorem ship_transport_spares_other_warehouses (s : TMSSystem.t) (t : string)
    (task : Task.t) (id : string) (w : Warehouse.t) (t_start t_end : Z)
    (db_ok : bool) :
  unique_ids (TMSSystem.warehouses s) →
  Dict.get t (TMSSystem.tasks s) = Some task →
  Task.task_type task = SHIP_TRANSPORT →
  Dict.get id (TMSSystem.warehouses s) = Some w →
  Warehouse.warehouse_type w ≠ PRODUCT →
  Dict.get id
    (TMSSystem.warehouses (TMSSystem.execute_task s t t_start t_end db_ok).2)
  = Some w.
Proof.
  intros Hunique Ht Htype Hid Hty. unfold TMSSystem.execute_task.
  rewrite Ht. cbv zeta.
  set (started := Task.start_execution t_start task).
  set (s1 := TMSSystem.set_task s t started).
  unfold TMSSystem.run_effect.
  replace (Task.task_type started) with SHIP_TRANSPORT by done.
  unfold TMSSystem.execute_ship_transport_task.
  pose proof (ship_lines_spares id w
                (default [] (Task.products (Task.meta started))) s1
                Hunique Hid Hty) as Hkept.
  destruct (TMSSystem.ship_lines s1 _) as [s2 [exn |]]; cbn in Hkept; [done |].
  unfold TMSSystem.release_and_save.
  cbn [Task.assigned_equipment Task.complete_task].
  destruct (Task.assigned_equipment started) as [c |]; [| by destruct db_ok].
  case_decide; [by destruct db_ok |].
  cbn [TMSSystem.equipment TMSSystem.set_task].
  destruct (Dict.get c (TMSSystem.equipment s2)); [| done].
  by destruct db_ok.
Qed.

Lemma ship_transport_spares_other_warehouses_witness :
  let s' := (TMSSystem.execute_task ship_yard "S1" 3 4 true).2 in
  stock_of s' "PW001" "P001" = Some 1
  ∧ Dict.get "TW001" (TMSSystem.warehouses s')
    = Some (Warehouse.remove_product
              (stocked "terminal 1" #1000 TERMINAL "P001" 10 #5) "P001" 4 #5).2.
Proof.
  cbv zeta. split; [by vm_compute |].
  apply (ship_transport_spares_other_warehouses ship_yard "S1"
           (ship_task [("P001", 3)]));
    [| by vm_compute ..].
  apply (bool_decide_unpack _). by vm_compute.
Defined.

(** ** Status and report *)

Lemma count_where_cons {V} (p : V → bool) kv (d : list (string * V)) :
  TMSQueries.count_where p (kv :: d)
  = ((if p kv.2 then 1 else 0) + TMSQueries.count_where p d)%nat.
Proof.
  unfold TMSQueries.count_where. rewrite filter_cons.
  destruct (p kv.2); by case_decide.
Qed.

(** X27. The counters of the status report: every registered equipment is
    counted once, as idle, busy or in maintenance, unless its status is
    Error, which no counter reports; and the active and the pending tasks
    together are at most the registered tasks. *)
Theorem status_counts_add_up (s : TMSSystem.t) :
  let st := TMSQueries.get_system_status s in
  (TMSQueries.idle st + TMSQueries.busy st + TMSQueries.maintenance st
   + TMSQueries.count_where (TMSQueries.has_equipment_status ERROR)
       (TMSSystem.equipment s)
   = TMSQueries.total_equipment st)%nat
  ∧ (TMSQueries.active_tasks st + TMSQueries.pending_tasks st
     ≤ length (TMSSystem.tasks s))%nat.
Proof.
  cbv zeta. unfold TMSQueries.get_system_status. cbn. split.
  - induction (TMSSystem.equipment s) as [| [id e] d IH]; [done |].
    rewrite !count_where_cons. cbn [length snd].
    unfold TMSQueries.has_equipment_status at 1 3 5 7.
    destruct (Equipment.status e); repeat case_bool_decide; try done; lia.
  - induction (TMSSystem.tasks s) as [| [id t] d IH]; [done |].
    rewrite !count_where_cons. cbn [length snd].
    unfold TMSQueries.has_task_status at 1 3.
    destruct (Task.status t); repeat case_bool_decide; try done; lia.
Qed.


(** X29. [distance_to] is a metric on the grid: symmetric, zero between a
    position and itself only, and never more than the way through a third
    position. *)
Theorem distance_to_metric (a b c : Position) :
  distance_to a b = distance_to b a
  ∧ (distance_to a b = 0 ↔ a = b)
  ∧ distance_to a c ≤ distance_to a b + distance_to b c.
Proof.
  unfold distance_to. destruct a as [ax ay], b as [bx by_], c as [cx cy]. cbn.
  split; [lia |]. split; [| lia].
  split; [intros ?; f_equal; lia | intros [= -> ->]; lia].
Qed.
